(** * fast-ok-server: statistics path of the fixed-response HTTP sink

  Shallow embedding of [src/fast-ok-server.go]: the request handler [h],
  the counters it updates, and the statistics goroutine of [main].

  The shared counters are Go [uint64] values updated with [sync/atomic];
  they are modelled as [Z] with the wrap-around at [2^64] written out.
  [hostMap] is a [sync.Map] from host names to [*hostStats]; pointers are
  indices into an explicit heap of [hostStats] objects, so that two
  goroutines holding "the same entry" is a statement about locations. *)

From Stdlib Require Import ZArith Lia String Ascii List.
From Stdlib Require Import Floats.SpecFloat.
From stdpp Require Import gmap strings list fin_maps sorting relations.

Open Scope Z_scope.

(** ** Go machine arithmetic *)

Module Go.

(** [uint64]: arithmetic wraps modulo [2^64]. *)
Definition uint64_max : Z := 2 ^ 64 - 1.

Definition uint64 (x : Z) : Z := x mod 2 ^ 64.

Definition is_uint64 (x : Z) : Prop := 0 <= x <= uint64_max.

(** [int] on the 64-bit Linux targets the server is built for: signed,
    wrapping into [-2^63, 2^63). *)
Definition int (x : Z) : Z := (x + 2 ^ 63) mod 2 ^ 64 - 2 ^ 63.

(** [atomic.AddUint64(&c, delta)] on the value stored in [c]. *)
Definition AddUint64 (c delta : Z) : Z := uint64 (c + delta).

(** [a + b] on [int] operands. *)
Definition add_int (a b : Z) : Z := int (a + b).

(** [a - b] on [uint64] operands. *)
Definition sub64 (a b : Z) : Z := uint64 (a - b).

(** Run-time panics that the modelled code can raise. *)
Inductive panic : Type :=
| DivideByZero     (* integer divide by zero *)
| SliceBounds.     (* slice bounds out of range *)

Inductive outcome (A : Type) : Type :=
| Returns (a : A)
| Panics (p : panic).
Arguments Returns {A} a.
Arguments Panics {A} p.

Definition bind {A B} (m : outcome A) (k : A -> outcome B) : outcome B :=
  match m with
  | Returns a => k a
  | Panics p => Panics p
  end.

Definition panicked {A} (m : outcome A) : bool :=
  match m with Returns _ => false | Panics _ => true end.

(** [a / b] on [uint64] operands: panics when [b] is zero. *)
Definition div64 (a b : Z) : outcome Z :=
  if b =? 0 then Panics DivideByZero else Returns (a / b).

(** [float64] is IEEE 754 binary64 (53-bit significand, emax 1024),
    round to nearest even. *)
Definition float64 : Type := spec_float.

Definition f64_of_Z (n : Z) : float64 := binary_normalize 53 1024 n 0 false.
Definition f64_add : float64 -> float64 -> float64 := SFadd 53 1024.
Definition f64_div : float64 -> float64 -> float64 := SFdiv 53 1024.
Definition f64_zero : float64 := S754_zero false.

(** [uint64(f)] for a float: the fractional part is discarded.  The
    result for negative, infinite or NaN operands is implementation
    dependent in Go; the reporter only converts the seconds of a positive
    duration, so those cases are mapped to 0 here. *)
Definition uint64_of_f64 (f : float64) : Z :=
  match f with
  | S754_finite false m e =>
      if 0 <=? e then uint64 (Z.shiftl (Z.pos m) e)
      else Z.shiftr (Z.pos m) (- e)
  | _ => 0
  end.

(** [time.Duration] is an [int64] count of nanoseconds. *)
Definition Nanosecond : Z := 1.
Definition Millisecond : Z := 1000000.
Definition Second : Z := 1000000000.

(** [Duration.Seconds]: [float64(d / Second) + float64(d % Second) / 1e9],
    with Go's truncating integer division. *)
Definition Seconds (d : Z) : float64 :=
  let sec := Z.quot d Second in
  let nsec := Z.rem d Second in
  f64_add (f64_of_Z sec) (f64_div (f64_of_Z nsec) (f64_of_Z 1000000000)).

(** [Duration.Truncate(m)]: [d - d % m] for positive [m]. *)
Definition Truncate (d m : Z) : Z :=
  if m <=? 0 then d else d - Z.rem d m.

End Go.

#[global] Arguments Go.uint64 : simpl never.
#[global] Arguments Go.AddUint64 : simpl never.
#[global] Arguments Go.int : simpl never.
#[global] Arguments Go.add_int : simpl never.
#[global] Arguments Go.sub64 : simpl never.

#[global] Instance outcome_ret : MRet Go.outcome := @Go.Returns.
#[global] Instance outcome_bind : MBind Go.outcome := fun A B k m => Go.bind m k.

(** ** [strings.ToLower] *)

Definition byte_val (c : ascii) : Z := Z.of_N (N_of_ascii c).
Definition byte_of (z : Z) : ascii := ascii_of_N (Z.to_N z).

(** [c >= utf8.RuneSelf] fails for every byte of the string. *)
Fixpoint isASCII (s : string) : bool :=
  match s with
  | EmptyString => true
  | String c s' => (byte_val c <? 128) && isASCII s'
  end.

Definition is_upper (c : ascii) : bool :=
  (65 <=? byte_val c) && (byte_val c <=? 90).

Fixpoint hasUpper (s : string) : bool :=
  match s with
  | EmptyString => false
  | String c s' => is_upper c || hasUpper s'
  end.

(** The byte loop of the ASCII path: [c += 'a' - 'A'] on upper-case bytes. *)
Fixpoint lower_bytes (s : string) : string :=
  match s with
  | EmptyString => EmptyString
  | String c s' =>
      String (if is_upper c then byte_of (byte_val c + 32) else c)
             (lower_bytes s')
  end.

(** ** Data model *)

(** A [*hostStats]: an index into the heap of allocated [hostStats]. *)
Abbreviation loc := nat (only parsing).

Record hostStats : Type := { requests : Z; bytes : Z }.

Record methodStats : Type := { get : Z; post : Z; other : Z }.

(** The package-level variables [totalRequests], [totalBytes], [hostMap] and
    [methods], with the heap that the [*hostStats] values of [hostMap]
    point into. *)
Record Globals : Type := {
  totalRequests : Z;
  totalBytes : Z;
  hostMap : gmap string loc;
  methods : methodStats;
  heap : list hostStats
}.

(** [&hostStats{}] *)
Definition zeroHostStats : hostStats := {| requests := 0; bytes := 0 |}.

Definition initGlobals : Globals :=
  {| totalRequests := 0; totalBytes := 0; hostMap := ∅;
     methods := {| get := 0; post := 0; other := 0 |}; heap := [] |}.

(** What the handler reads and writes of a [*fasthttp.RequestCtx]. *)
Record Response : Type := {
  StatusCode : Z;
  ContentType : string;
  ResponseBody : string
}.

Record RequestCtx : Type := {
  Host : string;            (* ctx.Host() *)
  Method : string;          (* ctx.Method() *)
  Header : string;          (* ctx.Request.Header.Header() *)
  Body : string;            (* ctx.Request.Body() *)
  RequestURI : string;      (* ctx.RequestURI() *)
  Resp : Response           (* ctx.Response *)
}.

(** [len(b)] of a byte slice, as an [int]. *)
Definition len (b : string) : Z := Z.of_nat (String.length b).

Definition StatusOK : Z := 200.
Definition MethodGet : string := "GET".
Definition MethodPost : string := "POST".

Inductive methodCategory : Type := GET | POST | OTHER.

#[global] Instance methodCategory_eq_dec : EqDecision methodCategory.
Proof. solve_decision. Defined.

(** The [switch string(ctx.Method())] of the handler. *)
Definition method_case (m : string) : methodCategory :=
  if String.eqb m MethodGet then GET
  else if String.eqb m MethodPost then POST
  else OTHER.

Definition count_method (c : methodCategory) (ms : methodStats) : methodStats :=
  match c with
  | GET => {| get := Go.AddUint64 (get ms) 1; post := post ms; other := other ms |}
  | POST => {| get := get ms; post := Go.AddUint64 (post ms) 1; other := other ms |}
  | OTHER => {| get := get ms; post := post ms; other := Go.AddUint64 (other ms) 1 |}
  end.

Definition estReqLine : Z := 11.

(** [reqSize], lines 60-65 of the handler. *)
Definition reqSize (ctx : RequestCtx) : Z :=
  let headersLen := len (Header ctx) in
  let bodyLen := len (Body ctx) in
  let methodLen := len (Method ctx) in
  let uriLen := len (RequestURI ctx) in
  Go.uint64
    (Go.add_int (Go.add_int (Go.add_int (Go.add_int headersLen bodyLen)
                                        methodLen) uriLen) estReqLine).

#[global] Arguments reqSize : simpl never.

Definition set_totalBytes (g : Globals) (v : Z) : Globals :=
  {| totalRequests := totalRequests g; totalBytes := v; hostMap := hostMap g;
     methods := methods g; heap := heap g |}.

Definition set_totalRequests (g : Globals) (v : Z) : Globals :=
  {| totalRequests := v; totalBytes := totalBytes g; hostMap := hostMap g;
     methods := methods g; heap := heap g |}.

Definition set_hostMap (g : Globals) (m : gmap string loc) : Globals :=
  {| totalRequests := totalRequests g; totalBytes := totalBytes g; hostMap := m;
     methods := methods g; heap := heap g |}.

Definition set_methods (g : Globals) (ms : methodStats) : Globals :=
  {| totalRequests := totalRequests g; totalBytes := totalBytes g;
     hostMap := hostMap g; methods := ms; heap := heap g |}.

Definition set_heap (g : Globals) (hp : list hostStats) : Globals :=
  {| totalRequests := totalRequests g; totalBytes := totalBytes g;
     hostMap := hostMap g; methods := methods g; heap := hp |}.

(** [atomic.AddUint64(&hs.requests, 1)] and [atomic.AddUint64(&hs.bytes, n)]
    on the object a pointer refers to. *)
Definition add_requests (n : Z) (hs : hostStats) : hostStats :=
  {| requests := Go.AddUint64 (requests hs) n; bytes := bytes hs |}.

Definition add_bytes (n : Z) (hs : hostStats) : hostStats :=
  {| requests := requests hs; bytes := Go.AddUint64 (bytes hs) n |}.

(** The handler as a sequence of atomic actions.  Each [sync/atomic] call and
    each [sync.Map] method is one indivisible step on the shared variables;
    the program counter records where a goroutine running [h] stands and the
    pointers it holds in its locals ([newHS], [hs]). *)
Inductive pc : Type :=
| AtAddBytes                      (* line 67 *)
| AtAddRequests                   (* line 68 *)
| AtLoad                          (* line 70 *)
| AtNew                           (* line 72 *)
| AtLoadOrStore (newHS : loc)     (* line 73 *)
| AtHostRequests (hs : loc)       (* line 80 *)
| AtHostBytes (hs : loc)          (* line 81 *)
| AtMethod                        (* lines 83-90 *)
| AtRespond                       (* lines 92-94 *)
| AtReturn.

Record Goroutine : Type := { ctx : RequestCtx; at_pc : pc }.

Definition goto (t : Goroutine) (p : pc) : Goroutine :=
  {| ctx := ctx t; at_pc := p |}.

Definition respond (c : RequestCtx) : RequestCtx :=
  {| Host := Host c; Method := Method c; Header := Header c; Body := Body c;
     RequestURI := RequestURI c;
     Resp := {| StatusCode := StatusOK;
                ContentType := "text/plain; charset=utf-8";
                ResponseBody := "OK" |} |}.

(** The number of atomic actions a goroutine at [p] needs at most to reach
    its return. *)
Definition remaining (p : pc) : nat :=
  match p with
  | AtAddBytes => 9
  | AtAddRequests => 8
  | AtLoad => 7
  | AtNew => 6
  | AtLoadOrStore _ => 5
  | AtHostRequests _ => 4
  | AtHostBytes _ => 3
  | AtMethod => 2
  | AtRespond => 1
  | AtReturn => 0
  end.

(** ** Reporter data *)

(** The local [item] type of the statistics goroutine. *)
Record item : Type := {
  item_host : string;
  item_req : Z;
  item_bytes : Z;
  item_avg : Go.float64
}.

(** The variables the statistics goroutine keeps between ticks. *)
Record Reporter : Type := {
  prevSnapshots : gmap string hostStats;
  prevTotalReq : Z;
  prevTotalBytes : Z
}.

Definition initReporter : Reporter :=
  {| prevSnapshots := ∅; prevTotalReq := 0; prevTotalBytes := 0 |}.

(** The arguments of the two [log.Printf] calls of a tick. *)
Record statsLine : Type := {
  req_per_s : Z;
  bytes_per_s : Z;
  avg_req : Go.float64;
  totals_req : Z;
  totals_bytes : Z;
  methods_get : Z;
  methods_post : Z;
  methods_other : Z;
  uptime : Z
}.

Record hostLine : Type := {
  line_host : string;
  line_req_per_s : Z;
  line_avg : Go.float64;
  line_req : Z;
  line_bytes : Z
}.

(** [*p] for a [*hostStats] stored in [hostMap].  Every stored pointer is
    allocated (lemma [reachable_inv]); the default is never taken. *)
Definition deref (hp : list hostStats) (p : loc) : hostStats :=
  default zeroHostStats (hp !! p).

(** [prevSnapshots[h]]: a missing key reads as the zero value. *)
Definition snapshot_of (snaps : gmap string hostStats) (h : string) : hostStats :=
  default zeroHostStats (snaps !! h).

(** The callback of [hostMap.Range], lines 137-155, applied to one entry. *)
Definition range_body (hp : list hostStats)
    (acc : list item * gmap string hostStats) (kv : string * loc)
    : list item * gmap string hostStats :=
  let '(items, snaps) := acc in
  let h := kv.1 in
  let hs := deref hp kv.2 in
  let currReq := requests hs in
  let currBytes := bytes hs in
  let prev := snapshot_of snaps h in
  let dreq := Go.sub64 currReq (requests prev) in
  let dbytes := Go.sub64 currBytes (bytes prev) in
  let items' :=
    if 0 <? dreq then
      items ++ [ {| item_host := h; item_req := dreq; item_bytes := dbytes;
                    item_avg := Go.f64_div (Go.f64_of_Z dbytes)
                                           (Go.f64_of_Z dreq) |} ]
    else items in
  (items', <[h := {| requests := currReq; bytes := currBytes |}]> snaps).

(** [hostMap.Range] visits every entry once, in an order the library leaves
    open; [map_to_list] fixes one such order. *)
Definition Range (g : Globals) (snaps : gmap string hostStats)
    : list item * gmap string hostStats :=
  foldl (range_body (heap g)) ([], snaps) (map_to_list (hostMap g)).

(** The [less] function handed to [sort.Slice], line 157. *)
Definition less (a b : item) : bool := item_req b <? item_req a.

(** [items[:top]] where [top <= len(items)], as the guard of line 158
    ensures at the only use: the slice expression panics on a negative
    index. *)
Definition slice_to (items : list item) (top : Z) : Go.outcome (list item) :=
  if top <? 0 then Go.Panics Go.SliceBounds
  else Go.Returns (take (Z.to_nat top) items).

(** Lines 158-160. *)
Definition truncate_top (items : list item) (top : Z) : Go.outcome (list item) :=
  if top <? Z.of_nat (length items) then slice_to items top
  else Go.Returns items.

(** [uint64(interval.Seconds())] *)
Definition interval_secs (interval : Z) : Z :=
  Go.uint64_of_f64 (Go.Seconds interval).

(** Lines 173-183: one [log.Printf] per retained item. *)
Fixpoint host_lines (secs : Z) (items : list item) : Go.outcome (list hostLine) :=
  match items with
  | [] => Go.Returns []
  | it :: rest =>
      r ← Go.div64 (item_req it) secs;
      ls ← host_lines secs rest;
      mret ({| line_host := item_host it; line_req_per_s := r;
               line_avg := item_avg it; line_req := item_req it;
               line_bytes := item_bytes it |} :: ls)
  end.

(** The current counters of the entry a pointer refers to, as the callback
    stores them in [prevSnapshots]. *)
Definition current (hp : list hostStats) (p : loc) : hostStats :=
  {| requests := requests (deref hp p); bytes := bytes (deref hp p) |}.

(** [dreq] and the [item] of one [hostMap] entry against given snapshots. *)
Definition dreq_of (hp : list hostStats) (snaps : gmap string hostStats)
    (kv : string * loc) : Z :=
  Go.sub64 (requests (deref hp kv.2)) (requests (snapshot_of snaps kv.1)).

Definition item_of (hp : list hostStats) (snaps : gmap string hostStats)
    (kv : string * loc) : item :=
  let dreq := dreq_of hp snaps kv in
  let dbytes := Go.sub64 (bytes (deref hp kv.2)) (bytes (snapshot_of snaps kv.1)) in
  {| item_host := kv.1; item_req := dreq; item_bytes := dbytes;
     item_avg := Go.f64_div (Go.f64_of_Z dbytes) (Go.f64_of_Z dreq) |}.

(** The hosts whose request counter moved since the previous tick. *)
Definition candidates (g : Globals) (snaps : gmap string hostStats) : list item :=
  item_of (heap g) snaps
    <$> filter (fun kv => 0 < dreq_of (heap g) snaps kv) (map_to_list (hostMap g)).

(** The arguments of the per-host [log.Printf] for one item. *)
Definition line_of (secs : Z) (it : item) : hostLine :=
  {| line_host := item_host it; line_req_per_s := item_req it / secs;
     line_avg := item_avg it; line_req := item_req it;
     line_bytes := item_bytes it |}.

(** ** Concurrent execution *)

(** The server runs one goroutine per request in flight. *)
Record System : Type := { glob : Globals; gors : list Goroutine }.

Definition initSystem : System := {| glob := initGlobals; gors := [] |}.

Definition spawn (s : System) (c : RequestCtx) : System :=
  {| glob := glob s;
     gors := gors s ++ [ {| ctx := c; at_pc := AtAddBytes |} ] |}.

(** An explicit schedule: which request arrives, or which goroutine moves,
    at each point of an execution. *)
Inductive action : Type :=
| Accept (c : RequestCtx)
| Run (i : nat).

(** ** Example requests *)

Fixpoint octets (n : nat) : string :=
  match n with
  | O => EmptyString
  | S n' => String "x"%char (octets n')
  end.

Definition request (host method : string) (headerLen bodyLen uriLen : nat)
    : RequestCtx :=
  {| Host := host; Method := method; Header := octets headerLen;
     Body := octets bodyLen; RequestURI := octets uriLen;
     Resp := {| StatusCode := 0; ContentType := EmptyString;
                ResponseBody := EmptyString |} |}.

Definition ex_post : RequestCtx := request "Example.COM" "POST" 100 50 20.
Definition ex_get : RequestCtx := request EmptyString "GET" 10 0 1.

(** Two requests for one new host racing through the lookup: both miss in
    [Load], both allocate, goroutine 1 wins [LoadOrStore] and goroutine 0
    finds the stored entry. *)
Definition race : list action :=
  [Accept ex_post; Accept ex_post;
   Run 0; Run 0; Run 0; Run 1; Run 1; Run 1;
   Run 0; Run 1; Run 1; Run 0]%nat.

(** The same race, with both goroutines then running to their return. *)
Definition race_finished : list action :=
  race ++ [Run 0; Run 1; Run 1; Run 0; Run 0; Run 0; Run 1; Run 1]%nat.



(** A request whose handler has incremented its host's request counter
    (line 80) but not yet the host's bytes (line 81). *)
Definition between_80_81 : list action :=
  Accept ex_post :: replicate 6 (Run 0%nat).


(** Seven hosts, the n-th of them sending n requests. *)
Definition seven_hosts : list RequestCtx :=
  flat_map (fun hn : string * nat => replicate hn.2 (request hn.1 "GET" 10 0 1))
    [("a.test", 1%nat); ("b.test", 2%nat); ("c.test", 3%nat); ("d.test", 4%nat);
     ("e.test", 5%nat); ("f.test", 6%nat); ("g.test", 7%nat)]%string.

(** Counters and reporter baseline of the delta example: 100 requests and
    5000 bytes at the previous tick, 150 and 8000 now. *)
Definition globals_150 : Globals :=
  {| totalRequests := 150; totalBytes := 8000; hostMap := ∅;
     methods := {| get := 150; post := 0; other := 0 |}; heap := [] |}.

Definition reporter_100 : Reporter :=
  {| prevSnapshots := ∅; prevTotalReq := 100; prevTotalBytes := 5000 |}.

(** The counters as two successive ticks find them. *)
Definition globals_100 : Globals :=
  {| totalRequests := 100; totalBytes := 5000; hostMap := ∅;
     methods := {| get := 100; post := 0; other := 0 |}; heap := [] |}.

Definition two_ticks : list (Z * Globals) :=
  [(3 * 1000000000, globals_100); (6 * 1000000000, globals_150)].

(** A host that spells the placeholder itself, in upper case. *)
Definition ex_placeholder : RequestCtx := request "(NO-HOST)" "GET" 10 0 1.

(** An instance of the Unicode path and of [sort.Slice] to run the model
    with: the identity (enough for ASCII hosts) and a merge sort. *)
Definition id_lower (s : string) : string := s.

Definition msort (f : item -> item -> bool) (l : list item) : list item :=
  @merge_sort item (fun a b => f b a = false)
    (fun a b => decide (f b a = false)) l.

Section Server.

(** [strings.ToLower] leaves its ASCII path for strings with a byte above
    127 and calls [strings.Map(unicode.ToLower, s)].  The Unicode case
    tables belong to the Go library, so that path is a parameter.  What is
    used of it: mapping never drops a rune, so a non-empty string stays
    non-empty. *)
Variable unicode_ToLower : string -> string.
Hypothesis unicode_ToLower_nonempty :
  forall s, s <> EmptyString -> unicode_ToLower s <> EmptyString.

Definition ToLower (s : string) : string :=
  if isASCII s then
    if negb (hasUpper s) then s else lower_bytes s
  else unicode_ToLower s.

(** [host], lines 55-58 of the handler. *)
Definition hostKey (c : RequestCtx) : string :=
  let host := ToLower (Host c) in
  if String.eqb host EmptyString then "(no-host)"%string else host.

(** One atomic action of a goroutine running [h]. *)
Definition step_h (g : Globals) (t : Goroutine) : Globals * Goroutine :=
  let host := hostKey (ctx t) in
  let size := reqSize (ctx t) in
  match at_pc t with
  | AtAddBytes =>
      (set_totalBytes g (Go.AddUint64 (totalBytes g) size), goto t AtAddRequests)
  | AtAddRequests =>
      (set_totalRequests g (Go.AddUint64 (totalRequests g) 1), goto t AtLoad)
  | AtLoad =>
      match hostMap g !! host with
      | Some v => (g, goto t (AtHostRequests v))
      | None => (g, goto t AtNew)
      end
  | AtNew =>
      (set_heap g (heap g ++ [zeroHostStats]),
       goto t (AtLoadOrStore (length (heap g))))
  | AtLoadOrStore newHS =>
      match hostMap g !! host with
      | Some actual => (g, goto t (AtHostRequests actual))
      | None => (set_hostMap g (<[host := newHS]> (hostMap g)),
                 goto t (AtHostRequests newHS))
      end
  | AtHostRequests hs =>
      (set_heap g (alter (add_requests 1) hs (heap g)), goto t (AtHostBytes hs))
  | AtHostBytes hs =>
      (set_heap g (alter (add_bytes size) hs (heap g)), goto t AtMethod)
  | AtMethod =>
      (set_methods g (count_method (method_case (Method (ctx t))) (methods g)),
       goto t AtRespond)
  | AtRespond =>
      (g, {| ctx := respond (ctx t); at_pc := AtReturn |})
  | AtReturn => (g, t)
  end.

(** Case analysis on the action a goroutine takes next, with the outcome of
    the map lookup where the action has one. *)
Ltac step_cases g t :=
  destruct t as [?c []]; unfold step_h; cbn;
  try destruct (hostMap g !! hostKey _) eqn:?; cbn.

Fixpoint run_h (n : nat) (g : Globals) (t : Goroutine) : Globals * Goroutine :=
  match n with
  | O => (g, t)
  | S n' => let '(g', t') := step_h g t in run_h n' g' t'
  end.

(** A call [h(ctx)] that runs without interference from other goroutines:
    at most nine atomic actions lead from entry to return. *)
Definition h (g : Globals) (c : RequestCtx) : Globals * RequestCtx :=
  let '(g', t') := run_h 9 g {| ctx := c; at_pc := AtAddBytes |} in
  (g', ctx t').

(** [sort.Slice] is the Go library's (unstable) sort: the result is a
    rearrangement of the slice in which no element is [less] than one placed
    before it.  Which of the rearrangements is returned is left open. *)
Variable sort_Slice : (item -> item -> bool) -> list item -> list item.
Hypothesis sort_Slice_perm : forall f l, sort_Slice f l ≡ₚ l.
Hypothesis sort_Slice_sorted :
  forall l, StronglySorted (fun a b => less b a = false) (sort_Slice less l).

(** One iteration of the [for range time.Tick(interval)] loop, lines 116-185,
    on the values the shared variables hold when the tick fires.
    [sinceStart] is [time.Since(startTime)]. *)
Definition tick (interval top sinceStart : Z) (g : Globals) (r : Reporter)
    : Go.outcome (Reporter * (statsLine * list hostLine)) :=
  let currTotalReq := totalRequests g in
  let currTotalBytes := totalBytes g in
  let dr := Go.sub64 currTotalReq (prevTotalReq r) in
  let db := Go.sub64 currTotalBytes (prevTotalBytes r) in
  let avg :=
    if 0 <? dr then Go.f64_div (Go.f64_of_Z db) (Go.f64_of_Z dr)
    else Go.f64_zero in
  let mg := get (methods g) in
  let mp := post (methods g) in
  let mo := other (methods g) in
  let '(items, snaps) := Range g (prevSnapshots r) in
  let items := sort_Slice less items in
  items ← truncate_top items top;
  let up := Go.Truncate sinceStart Go.Second in
  rps ← Go.div64 dr (interval_secs interval);
  bps ← Go.div64 db (interval_secs interval);
  ls ← host_lines (interval_secs interval) items;
  mret ({| prevSnapshots := snaps; prevTotalReq := currTotalReq;
           prevTotalBytes := currTotalBytes |},
        ({| req_per_s := rps; bytes_per_s := bps; avg_req := avg;
            totals_req := currTotalReq; totals_bytes := currTotalBytes;
            methods_get := mg; methods_post := mp; methods_other := mo;
            uptime := up |}, ls)).

(** Any goroutine may take its next atomic action (one that has returned
    stays as it is), and a new request may arrive at any time. *)
Inductive sys_step : System -> System -> Prop :=
| step_accept s c :
    sys_step s (spawn s c)
| step_run s i t :
    gors s !! i = Some t ->
    sys_step s {| glob := (step_h (glob s) t).1;
                  gors := <[i := (step_h (glob s) t).2]> (gors s) |}.

Definition reachable (s : System) : Prop := rtc sys_step initSystem s.

(** *** What the goroutines have added so far

    Each function gives the amount one goroutine has contributed to one
    counter, read off its program counter; [tally] adds the contributions of
    all goroutines.  These are the values the counters would hold without
    wrap-around. *)

Definition key (t : Goroutine) : string := hostKey (ctx t).

Definition added_bytes (t : Goroutine) : Z :=
  match at_pc t with
  | AtAddBytes => 0
  | _ => reqSize (ctx t)
  end.

Definition added_request (t : Goroutine) : Z :=
  match at_pc t with
  | AtAddBytes | AtAddRequests => 0
  | _ => 1
  end.

Definition added_host_request (k : string) (t : Goroutine) : Z :=
  if decide (key t = k) then
    match at_pc t with
    | AtHostBytes _ | AtMethod | AtRespond | AtReturn => 1
    | _ => 0
    end
  else 0.

Definition added_host_bytes (k : string) (t : Goroutine) : Z :=
  if decide (key t = k) then
    match at_pc t with
    | AtMethod | AtRespond | AtReturn => reqSize (ctx t)
    | _ => 0
    end
  else 0.

Definition added_method (cat : methodCategory) (t : Goroutine) : Z :=
  if decide (method_case (Method (ctx t)) = cat) then
    match at_pc t with
    | AtRespond | AtReturn => 1
    | _ => 0
    end
  else 0.

Fixpoint tally (w : Goroutine -> Z) (ts : list Goroutine) : Z :=
  match ts with
  | [] => 0
  | t :: ts' => w t + tally w ts'
  end.

(** The pointer a goroutine holds in [hs], the pointer it holds in [newHS]
    before [LoadOrStore] has run, and whether it is past the lookup. *)
Definition holds (t : Goroutine) : option loc :=
  match at_pc t with
  | AtHostRequests hs | AtHostBytes hs => Some hs
  | _ => None
  end.

Definition unpublished (t : Goroutine) : option loc :=
  match at_pc t with
  | AtLoadOrStore newHS => Some newHS
  | _ => None
  end.

Definition entered (t : Goroutine) : bool :=
  match at_pc t with
  | AtHostRequests _ | AtHostBytes _ | AtMethod | AtRespond | AtReturn => true
  | _ => false
  end.

Record totals_inv (s : System) : Prop := {
  inv_totalBytes :
    totalBytes (glob s) = Go.uint64 (tally added_bytes (gors s));
  inv_totalRequests :
    totalRequests (glob s) = Go.uint64 (tally added_request (gors s));
  inv_get : get (methods (glob s)) = Go.uint64 (tally (added_method GET) (gors s));
  inv_post : post (methods (glob s)) = Go.uint64 (tally (added_method POST) (gors s));
  inv_other :
    other (methods (glob s)) = Go.uint64 (tally (added_method OTHER) (gors s))
}.

Record pointers_inv (s : System) : Prop := {
  inv_entered : forall t,
    t ∈ gors s -> entered t = true -> is_Some (hostMap (glob s) !! key t);
  inv_holds : forall t p,
    t ∈ gors s -> holds t = Some p -> hostMap (glob s) !! key t = Some p;
  inv_alloc : forall k p,
    hostMap (glob s) !! k = Some p -> (p < length (heap (glob s)))%nat;
  inv_inj : forall k1 k2 p,
    hostMap (glob s) !! k1 = Some p -> hostMap (glob s) !! k2 = Some p -> k1 = k2;
  inv_fresh : forall i t n,
    gors s !! i = Some t -> unpublished t = Some n ->
    heap (glob s) !! n = Some zeroHostStats
    /\ (forall k, hostMap (glob s) !! k <> Some n)
    /\ (forall j t', gors s !! j = Some t' -> unpublished t' = Some n -> j = i)
}.

Record hosts_inv (s : System) : Prop := {
  inv_host : forall k p,
    hostMap (glob s) !! k = Some p ->
    exists hs,
      heap (glob s) !! p = Some hs
      /\ requests hs = Go.uint64 (tally (added_host_request k) (gors s))
      /\ bytes hs = Go.uint64 (tally (added_host_bytes k) (gors s))
}.

(** The effect of one scheduled action. *)
Definition perform (s : System) (a : action) : System :=
  match a with
  | Accept c => spawn s c
  | Run i =>
      match gors s !! i with
      | Some t => {| glob := (step_h (glob s) t).1;
                     gors := <[i := (step_h (glob s) t).2]> (gors s) |}
      | None => s
      end
  end.

Definition schedule (acts : list action) (s : System) : System :=
  foldl perform s acts.

(** A goroutine that has served request [c] and returned. *)
Definition returned (c : RequestCtx) : Goroutine :=
  {| ctx := respond c; at_pc := AtReturn |}.

(** A contribution function that starts at zero, never decreases as its
    goroutine advances, and never exceeds [cap]. *)
Record advancing (w : Goroutine -> Z) (cap : Goroutine -> Z) : Prop := {
  adv_start : forall c, w {| ctx := c; at_pc := AtAddBytes |} = 0;
  adv_nonneg : forall t, 0 <= w t;
  adv_step : forall g t, w t <= w (step_h g t).2;
  adv_cap : forall t, w t <= cap t
}.

(** Every counter of [g'] is at least the counter of [g] it continues: the
    totals, the method counters, and the pair of every host entry of [g]. *)
Definition counters_le (g g' : Globals) : Prop :=
  totalRequests g <= totalRequests g'
  /\ totalBytes g <= totalBytes g'
  /\ get (methods g) <= get (methods g')
  /\ post (methods g) <= post (methods g')
  /\ other (methods g) <= other (methods g')
  /\ forall k p hs,
       hostMap g !! k = Some p -> heap g !! p = Some hs ->
       exists hs', hostMap g' !! k = Some p /\ heap g' !! p = Some hs'
                   /\ requests hs <= requests hs' /\ bytes hs <= bytes hs'.

(** Requests served one after the other, each call returning before the
    next one starts. *)
Definition serve (g : Globals) (cs : list RequestCtx) : Globals :=
  foldl (fun g c => (h g c).1) g cs.

(** The bytes of a request fit Go's [int]: no addition of line 65 wraps. *)
Definition fits_int (c : RequestCtx) : Prop :=
  len (Header c) + len (Body c) + len (Method c) + len (RequestURI c)
    + estReqLine < 2 ^ 63.

(** The sum of the size estimates of a list of requests. *)
Definition total_size (cs : list RequestCtx) : Z :=
  foldr (fun c acc => reqSize c + acc) 0 cs.

(** The actions of one goroutine amid arbitrary activity of the others:
    [gs] lists the shared variables as the goroutine finds them at each of
    its successive actions. *)
Definition run_among (gs : list Globals) (t : Goroutine) : Goroutine :=
  foldl (fun t g => (step_h g t).2) t gs.

(** The requests of a list that fall into bucket [k], counted and sized. *)
Definition requests_for (k : string) (cs : list RequestCtx) : Z :=
  Z.of_nat (length (filter (fun c => hostKey c = k) cs)).

Definition bytes_for (k : string) (cs : list RequestCtx) : Z :=
  total_size (filter (fun c => hostKey c = k) cs).

(** Whether a goroutine is past [&hostStats{}] or past the lookup that made
    the allocation unnecessary, as 0 or 1. *)
Definition past_lookup (t : Goroutine) : Z :=
  match at_pc t with
  | AtAddBytes | AtAddRequests | AtLoad | AtNew => 0
  | _ => 1
  end.

Definition past_store (t : Goroutine) : Z := if entered t then 1 else 0.

(** The iterations of [for range time.Tick(interval)], lines 112-186, over
    the values of [time.Since(startTime)] and of the shared variables that
    successive ticks find.  A panic ends the loop, and the process. *)
Fixpoint ticks (interval top : Z) (obs : list (Z * Globals)) (r : Reporter)
    : Go.outcome (Reporter * list (statsLine * list hostLine)) :=
  match obs with
  | [] => Go.Returns (r, [])
  | (sinceStart, g) :: rest =>
      match tick interval top sinceStart g r with
      | Go.Returns (r', report) =>
          match ticks interval top rest r' with
          | Go.Returns (r'', reports) => Go.Returns (r'', report :: reports)
          | Go.Panics p => Go.Panics p
          end
      | Go.Panics p => Go.Panics p
      end
  end.

(** The statistics goroutine, lines 111-187.  [time.Tick(d)] returns a nil
    channel for [d <= 0], and the loop over it never runs its body. *)
Definition reporter (interval top : Z) (obs : list (Z * Globals))
    : Go.outcome (Reporter * list (statsLine * list hostLine)) :=
  if interval <=? 0 then Go.Returns (initReporter, [])
  else ticks interval top obs initReporter.

(** The [req/s] figures of a list of reports, added up. *)
Definition sum_rates (reports : list (statsLine * list hostLine)) : Z :=
  foldr (fun rep acc => req_per_s rep.1 + acc) 0 reports.

(** The arguments of the [fmt.Printf] of the final totals, lines 209-220:
    requests, bytes, average size and uptime. *)
Definition final_totals (sinceStart : Z) (g : Globals)
    : Z * Z * Go.float64 * Z :=
  let currReq := totalRequests g in
  let currBytes := totalBytes g in
  let avg :=
    if 0 <? currReq then Go.f64_div (Go.f64_of_Z currBytes) (Go.f64_of_Z currReq)
    else Go.f64_zero in
  (currReq, currBytes, avg, Go.Truncate sinceStart Go.Second).

(** The request totals that successive ticks find never decrease from
    [prev] on and stay within [uint64]. *)
Fixpoint observed_nondecreasing (prev : Z) (obs : list (Z * Globals)) : Prop :=
  match obs with
  | [] => True
  | (_, g) :: rest =>
      prev <= totalRequests g <= Go.uint64_max
      /\ observed_nondecreasing (totalRequests g) rest
  end.





(** ** Arithmetic facts *)

Lemma uint64_small x : 0 <= x <= Go.uint64_max -> Go.uint64 x = x.
Proof.
  unfold Go.uint64, Go.uint64_max. intros Hx.
  apply Z.mod_small. lia.
Qed.

Lemma uint64_range x : Go.is_uint64 (Go.uint64 x).
Proof.
  unfold Go.is_uint64, Go.uint64, Go.uint64_max.
  pose proof (Z.mod_pos_bound x (2 ^ 64) ltac:(lia)). lia.
Qed.

Lemma uint64_idemp x : Go.uint64 (Go.uint64 x) = Go.uint64 x.
Proof. unfold Go.uint64. apply Z.mod_mod. lia. Qed.

Lemma uint64_add_l x y : Go.uint64 (Go.uint64 x + y) = Go.uint64 (x + y).
Proof. unfold Go.uint64. apply Zplus_mod_idemp_l. Qed.

Lemma int_small x : - 2 ^ 63 <= x < 2 ^ 63 -> Go.int x = x.
Proof.
  unfold Go.int. intros Hx.
  rewrite Z.mod_small; lia.
Qed.

Lemma len_nonneg b : 0 <= len b.
Proof. unfold len. lia. Qed.

Lemma reqSize_fits c :
  fits_int c ->
  reqSize c = len (Header c) + len (Body c) + len (Method c)
              + len (RequestURI c) + 11.
Proof.
  unfold fits_int, reqSize, Go.add_int, estReqLine. intros Hfit.
  pose proof (len_nonneg (Header c)). pose proof (len_nonneg (Body c)).
  pose proof (len_nonneg (Method c)). pose proof (len_nonneg (RequestURI c)).
  rewrite (int_small (len (Header c) + len (Body c))) by lia.
  rewrite (int_small (len (Header c) + len (Body c) + len (Method c))) by lia.
  rewrite (int_small (_ + len (RequestURI c))) by lia.
  rewrite int_small by lia.
  apply uint64_small. unfold Go.uint64_max. lia.
Qed.

Lemma reqSize_range c : Go.is_uint64 (reqSize c).
Proof. apply uint64_range. Qed.

(** ** The handler in closed form *)

Lemma h_eq g c :
  h g c =
  ({| totalRequests := Go.AddUint64 (totalRequests g) 1;
      totalBytes := Go.AddUint64 (totalBytes g) (reqSize c);
      hostMap := match hostMap g !! hostKey c with
                 | Some _ => hostMap g
                 | None => <[hostKey c := length (heap g)]> (hostMap g)
                 end;
      methods := count_method (method_case (Method c)) (methods g);
      heap := match hostMap g !! hostKey c with
              | Some l =>
                  alter (add_bytes (reqSize c)) l
                    (alter (add_requests 1) l (heap g))
              | None =>
                  alter (add_bytes (reqSize c)) (length (heap g))
                    (alter (add_requests 1) (length (heap g))
                       (heap g ++ [zeroHostStats]))
              end |},
   respond c).
Proof.
  unfold h, run_h, step_h; cbn.
  destruct (hostMap g !! hostKey c) as [l|] eqn:Hl; cbn; rewrite ?Hl; cbn;
    reflexivity.
Qed.

(** ** Request classification *)

Lemma eqb_empty s : String.eqb s EmptyString = true <-> s = EmptyString.
Proof. apply String.eqb_eq. Qed.

Lemma lower_bytes_nonempty s : s <> EmptyString -> lower_bytes s <> EmptyString.
Proof. destruct s; [congruence | discriminate]. Qed.

Lemma lower_bytes_no_upper s : hasUpper s = false -> lower_bytes s = s.
Proof.
  induction s as [|a s IH]; cbn; [reflexivity|].
  intros [Ha Hs]%orb_false_elim. rewrite Ha, IH; auto.
Qed.

(** On ASCII input [strings.ToLower] is the byte-wise lowering. *)
Lemma ToLower_ascii s : isASCII s = true -> ToLower s = lower_bytes s.
Proof.
  unfold ToLower. intros ->.
  destruct (hasUpper s) eqn:Hu; cbn; [reflexivity|].
  symmetry. apply lower_bytes_no_upper, Hu.
Qed.

Lemma ToLower_empty_iff s : ToLower s = EmptyString <-> s = EmptyString.
Proof.
  split.
  - unfold ToLower.
    destruct (decide (s = EmptyString)) as [|Hne]; [intros _; assumption|].
    destruct (isASCII s).
    + destruct (negb (hasUpper s)); intros Hlow; [assumption|].
      destruct (lower_bytes_nonempty s Hne Hlow).
    + intros Hlow. destruct (unicode_ToLower_nonempty s Hne Hlow).
  - intros ->. reflexivity.
Qed.

(** C2.  Classification: the host key is the lower-cased raw host, or the
    sentinel ["(no-host)"] when the raw host is empty, and the size estimate
    is the sum of the header, body, method and URI byte lengths plus 11, for
    every request whose byte lengths add up within Go's [int]. *)
Theorem classify_hostKey_sizeEstimate (c : RequestCtx) :
  fits_int c ->
  hostKey c = (if decide (Host c = EmptyString) then "(no-host)"%string
               else ToLower (Host c))
  /\ reqSize c = len (Header c) + len (Body c) + len (Method c)
                 + len (RequestURI c) + 11.
Proof.
  intros Hfit. split; [|apply reqSize_fits, Hfit].
  unfold hostKey. destruct (decide (Host c = EmptyString)) as [He|Hne].
  - rewrite (proj2 (ToLower_empty_iff _) He). reflexivity.
  - destruct (String.eqb (ToLower (Host c)) EmptyString) eqn:Hb;
      [|reflexivity].
    apply eqb_empty in Hb. apply (proj1 (ToLower_empty_iff _)) in Hb.
    congruence.
Qed.

(** C9.  Method category: GET exactly for the string ["GET"], POST exactly
    for ["POST"], OTHER for every other string, lower-case spellings
    included; the handler bumps the counter of that category. *)
Theorem method_case_exact (m : string) :
  (method_case m = GET <-> m = "GET"%string)
  /\ (method_case m = POST <-> m = "POST"%string)
  /\ (method_case m = OTHER <-> m <> "GET"%string /\ m <> "POST"%string)
  /\ method_case "get" = OTHER
  /\ method_case "post" = OTHER
  /\ forall g c, methods (h g c).1
                 = count_method (method_case (Method c)) (methods g).
Proof.
  assert (Hcase :
    (m = "GET"%string /\ method_case m = GET)
    \/ (m = "POST"%string /\ method_case m = POST)
    \/ (m <> "GET"%string /\ m <> "POST"%string /\ method_case m = OTHER)).
  { unfold method_case, MethodGet, MethodPost.
    destruct (String.eqb_spec m "GET") as [->|Hg]; [left; auto|].
    destruct (String.eqb_spec m "POST") as [->|Hp]; [right; left; auto|].
    right; right; auto. }
  repeat split; try reflexivity;
    try (intros; rewrite h_eq; reflexivity);
    destruct Hcase as [[-> Hc]|[[-> Hc]|(Hg & Hp & Hc)]];
    rewrite ?Hc in *; try congruence; try discriminate; try tauto.
Qed.

Lemma run_h_returns g c :
  run_h 9 g {| ctx := c; at_pc := AtAddBytes |} = ((h g c).1, returned c).
Proof.
  rewrite h_eq. unfold run_h, step_h, returned; cbn.
  destruct (hostMap g !! hostKey c) as [l|] eqn:Hl; cbn; rewrite ?Hl; cbn;
    reflexivity.
Qed.

(** C3.  Every call of the handler runs to its return and leaves status 200,
    content type [text/plain; charset=utf-8] and body [OK] in the response,
    whatever the request and whatever the counters hold. *)
Theorem handler_always_OK (g : Globals) (c : RequestCtx) :
  at_pc (run_h 9 g {| ctx := c; at_pc := AtAddBytes |}).2 = AtReturn
  /\ Resp (h g c).2
     = {| StatusCode := 200; ContentType := "text/plain; charset=utf-8";
          ResponseBody := "OK" |}.
Proof.
  split; [|rewrite h_eq; reflexivity].
  rewrite run_h_returns. reflexivity.
Qed.

(** ** Totals after a sequence of requests *)

Lemma total_size_cons c cs : total_size (c :: cs) = reqSize c + total_size cs.
Proof. reflexivity. Qed.


Lemma total_size_perm cs cs' : cs ≡ₚ cs' -> total_size cs = total_size cs'.
Proof.
  induction 1 as [|c cs cs' _ IH|c1 c2 cs|cs1 cs2 cs3 _ IH1 _ IH2];
    rewrite ?total_size_cons; lia || reflexivity.
Qed.

Lemma total_size_fits cs :
  Forall fits_int cs -> 11 * Z.of_nat (length cs) <= total_size cs.
Proof.
  induction 1 as [|c cs Hc _ IH]; [cbn; lia|].
  rewrite total_size_cons, (reqSize_fits c Hc). cbn [length].
  pose proof (len_nonneg (Header c)). pose proof (len_nonneg (Body c)).
  pose proof (len_nonneg (Method c)). pose proof (len_nonneg (RequestURI c)).
  lia.
Qed.

Lemma serve_totals cs g n b :
  totalRequests g = Go.uint64 n -> totalBytes g = Go.uint64 b ->
  totalRequests (serve g cs) = Go.uint64 (n + Z.of_nat (length cs))
  /\ totalBytes (serve g cs) = Go.uint64 (b + total_size cs).
Proof.
  revert g n b. induction cs as [|c cs IH]; intros g n b Hn Hb.
  - cbn. rewrite Z.add_0_r, Z.add_0_r. done.
  - cbn [serve foldl]. fold (serve (h g c).1 cs).
    destruct (IH (h g c).1 (n + 1) (b + reqSize c)) as [IHn IHb].
    + rewrite h_eq. cbn. unfold Go.AddUint64. by rewrite Hn, uint64_add_l.
    + rewrite h_eq. cbn. unfold Go.AddUint64. by rewrite Hb, uint64_add_l.
    + rewrite IHn, IHb, total_size_cons. cbn [length].
      split; f_equal; lia.
Qed.

Lemma serve_init_totals cs :
  totalRequests (serve initGlobals cs) = Go.uint64 (Z.of_nat (length cs))
  /\ totalBytes (serve initGlobals cs) = Go.uint64 (total_size cs).
Proof. apply (serve_totals cs initGlobals 0 0); reflexivity. Qed.

Lemma total_size_nonneg cs : 0 <= total_size cs.
Proof.
  induction cs as [|c cs IH]; [cbn; lia|]. rewrite total_size_cons.
  pose proof (reqSize_range c) as Hc. unfold Go.is_uint64 in Hc. lia.
Qed.

(** C7.  Served from the initial counters, a finite sequence of requests
    leaves [totalRequests] equal to the number of requests and [totalBytes]
    equal to the sum of their size estimates, as long as neither exceeds the
    largest [uint64]; any rearrangement of the sequence leaves the same two
    totals. *)
Theorem totals_are_commutative_sums (cs : list RequestCtx) :
  Z.of_nat (length cs) <= Go.uint64_max -> total_size cs <= Go.uint64_max ->
  totalRequests (serve initGlobals cs) = Z.of_nat (length cs)
  /\ totalBytes (serve initGlobals cs) = total_size cs
  /\ forall cs', cs' ≡ₚ cs ->
       totalRequests (serve initGlobals cs') = totalRequests (serve initGlobals cs)
       /\ totalBytes (serve initGlobals cs') = totalBytes (serve initGlobals cs).
Proof.
  intros Hlen Hsize.
  destruct (serve_init_totals cs) as [Hr Hb].
  pose proof (total_size_nonneg cs).
  rewrite Hr, Hb, !uint64_small by lia.
  split; [done|]. split; [done|].
  intros cs' Hperm. destruct (serve_init_totals cs') as [Hr' Hb'].
  rewrite Hr', Hb', (Permutation_length Hperm), (total_size_perm _ _ Hperm).
  rewrite !uint64_small by lia. done.
Qed.

(** C10.  After any sequence of completed handler calls from the initial
    counters, [totalBytes >= 11 * totalRequests], provided each request's
    byte lengths add up within [int] and the totals have not passed the
    largest [uint64]. *)
Theorem total_bytes_at_least_11_per_request (cs : list RequestCtx) :
  Forall fits_int cs -> total_size cs <= Go.uint64_max ->
  11 * totalRequests (serve initGlobals cs) <= totalBytes (serve initGlobals cs).
Proof.
  intros Hfits Hsize.
  pose proof (total_size_fits cs Hfits) as H11.
  destruct (serve_init_totals cs) as [Hr Hb].
  rewrite Hr, Hb, !uint64_small by lia. exact H11.
Qed.

(** ** The statistics goroutine *)

Lemma range_body_eq hp items snaps kv :
  range_body hp (items, snaps) kv =
  (items ++ (if decide (0 < dreq_of hp snaps kv) then [item_of hp snaps kv] else []),
   <[kv.1 := current hp kv.2]> snaps).
Proof.
  unfold range_body, item_of, dreq_of, current. cbn.
  destruct (Z.ltb_spec 0 (Go.sub64 (requests (deref hp kv.2))
                                   (requests (snapshot_of snaps kv.1))));
    case_decide; try lia; rewrite ?app_nil_r; reflexivity.
Qed.

Lemma dreq_of_insert_ne hp snaps k v kv :
  kv.1 <> k -> dreq_of hp (<[k := v]> snaps) kv = dreq_of hp snaps kv.
Proof.
  intros Hne. unfold dreq_of, snapshot_of. by rewrite lookup_insert_ne.
Qed.

Lemma item_of_insert_ne hp snaps k v kv :
  kv.1 <> k -> item_of hp (<[k := v]> snaps) kv = item_of hp snaps kv.
Proof.
  intros Hne. unfold item_of. rewrite dreq_of_insert_ne by done.
  unfold snapshot_of. by rewrite lookup_insert_ne.
Qed.

Lemma moved_insert_ne hp snaps k v (kvs : list (string * loc)) :
  k ∉ kvs.*1 ->
  item_of hp (<[k := v]> snaps)
    <$> filter (fun kv => 0 < dreq_of hp (<[k := v]> snaps) kv) kvs
  = item_of hp snaps <$> filter (fun kv => 0 < dreq_of hp snaps kv) kvs.
Proof.
  induction kvs as [|kv kvs IH]; [reflexivity|].
  rewrite fmap_cons, not_elem_of_cons. intros [Hne Hnin].
  rewrite !filter_cons, dreq_of_insert_ne by done.
  case_decide; cbn; rewrite ?item_of_insert_ne by done; rewrite IH; done.
Qed.

Lemma Range_items hp (kvs : list (string * loc)) items snaps :
  NoDup kvs.*1 ->
  (foldl (range_body hp) (items, snaps) kvs).1
  = items ++ (item_of hp snaps
                <$> filter (fun kv => 0 < dreq_of hp snaps kv) kvs).
Proof.
  revert items snaps. induction kvs as [|kv kvs IH]; intros items snaps Hnd.
  - cbn. by rewrite app_nil_r.
  - rewrite fmap_cons in Hnd. apply NoDup_cons in Hnd as [Hnin Hnd].
    cbn [foldl]. rewrite range_body_eq, IH by done.
    rewrite moved_insert_ne by done. rewrite filter_cons.
    case_decide; cbn; by rewrite <- ?app_assoc.
Qed.

Lemma Range_snaps hp (kvs : list (string * loc)) items snaps k :
  NoDup kvs.*1 ->
  (foldl (range_body hp) (items, snaps) kvs).2 !! k
  = match (list_to_map kvs : gmap string loc) !! k with
    | Some p => Some (current hp p)
    | None => snaps !! k
    end.
Proof.
  revert items snaps. induction kvs as [|kv kvs IH]; intros items snaps Hnd.
  - cbn. by rewrite lookup_empty.
  - rewrite fmap_cons in Hnd. apply NoDup_cons in Hnd as [Hnin Hnd].
    cbn [foldl]. rewrite range_body_eq, IH by done.
    destruct kv as [k' p']. rewrite list_to_map_cons. cbn [fst snd] in *.
    destruct (decide (k' = k)) as [<-|Hne].
    + rewrite (not_elem_of_list_to_map_1 (M := gmap string)) by done.
      by rewrite !lookup_insert_eq.
    + rewrite (lookup_insert_ne (list_to_map kvs)) by done.
      destruct (list_to_map kvs !! k); [done|]. by rewrite lookup_insert_ne.
Qed.

Lemma Range_eq g snaps :
  (Range g snaps).1 = candidates g snaps
  /\ forall k, (Range g snaps).2 !! k
               = match hostMap g !! k with
                 | Some p => Some (current (heap g) p)
                 | None => snaps !! k
                 end.
Proof.
  unfold Range, candidates. split.
  - rewrite Range_items by apply NoDup_fst_map_to_list. done.
  - intros k. rewrite Range_snaps by apply NoDup_fst_map_to_list.
    by rewrite list_to_map_to_list.
Qed.

Lemma elem_of_candidates g snaps it :
  it ∈ candidates g snaps <->
  exists k p, hostMap g !! k = Some p
              /\ 0 < dreq_of (heap g) snaps (k, p)
              /\ it = item_of (heap g) snaps (k, p).
Proof.
  unfold candidates. rewrite list_elem_of_fmap. split.
  - intros ([k p] & -> & [Hpos Hin%elem_of_map_to_list]%list_elem_of_filter).
    eauto.
  - intros (k & p & Hin & Hpos & ->). exists (k, p). split; [done|].
    apply list_elem_of_filter. split; [done|]. by apply elem_of_map_to_list.
Qed.

Lemma truncate_top_ok items top :
  0 <= top -> truncate_top items top = Go.Returns (take (Z.to_nat top) items).
Proof.
  intros Htop. unfold truncate_top, slice_to.
  destruct (Z.ltb_spec top (Z.of_nat (length items))) as [Hlt|Hge].
  - destruct (Z.ltb_spec top 0); [lia|done].
  - rewrite take_ge by lia. done.
Qed.

Lemma truncate_top_negative items top :
  top < 0 -> truncate_top items top = Go.Panics Go.SliceBounds.
Proof.
  intros Htop. unfold truncate_top, slice_to.
  destruct (Z.ltb_spec top (Z.of_nat (length items))); [|lia].
  destruct (Z.ltb_spec top 0); [done|lia].
Qed.

Lemma div64_ok a b : b <> 0 -> Go.div64 a b = Go.Returns (a / b).
Proof. unfold Go.div64. destruct (Z.eqb_spec b 0); done. Qed.

Lemma host_lines_ok secs items :
  secs <> 0 -> host_lines secs items = Go.Returns (line_of secs <$> items).
Proof.
  intros Hs. induction items as [|it items IH]; [done|].
  cbn [host_lines]. rewrite div64_ok, IH by done. done.
Qed.

(** A tick returns whenever [top] is not negative and the interval is at
    least one whole second. *)
Lemma tick_returns interval top sinceStart g r :
  0 <= top -> interval_secs interval <> 0 ->
  let dr := Go.sub64 (totalRequests g) (prevTotalReq r) in
  let db := Go.sub64 (totalBytes g) (prevTotalBytes r) in
  let items :=
    take (Z.to_nat top) (sort_Slice less (Range g (prevSnapshots r)).1) in
  tick interval top sinceStart g r =
  Go.Returns
    ({| prevSnapshots := (Range g (prevSnapshots r)).2;
        prevTotalReq := totalRequests g; prevTotalBytes := totalBytes g |},
     ({| req_per_s := dr / interval_secs interval;
         bytes_per_s := db / interval_secs interval;
         avg_req := if 0 <? dr then Go.f64_div (Go.f64_of_Z db) (Go.f64_of_Z dr)
                    else Go.f64_zero;
         totals_req := totalRequests g; totals_bytes := totalBytes g;
         methods_get := get (methods g); methods_post := post (methods g);
         methods_other := other (methods g);
         uptime := Go.Truncate sinceStart Go.Second |},
      line_of (interval_secs interval) <$> items)).
Proof.
  intros Htop Hsecs. cbn zeta. unfold tick.
  destruct (Range g (prevSnapshots r)) as [items snaps]. cbn [fst snd].
  rewrite truncate_top_ok by done. cbn.
  rewrite !div64_ok by done. cbn.
  rewrite host_lines_ok by done. done.
Qed.

(** A tick whose interval has no whole second panics at line 164. *)
Lemma tick_zero_secs_panics interval top sinceStart g r :
  interval_secs interval = 0 ->
  Go.panicked (tick interval top sinceStart g r) = true.
Proof.
  intros Hsecs. unfold tick.
  destruct (Range g (prevSnapshots r)) as [items snaps].
  destruct (truncate_top (sort_Slice less items) top) as [kept|]; [|done].
  cbn. rewrite Hsecs. done.
Qed.

Lemma tick_zero_secs_divides interval top sinceStart g r :
  0 <= top -> interval_secs interval = 0 ->
  tick interval top sinceStart g r = Go.Panics Go.DivideByZero.
Proof.
  intros Htop Hsecs. unfold tick.
  destruct (Range g (prevSnapshots r)) as [items snaps].
  rewrite truncate_top_ok by done. cbn. rewrite Hsecs. done.
Qed.

(** A negative [-top] makes [items[:top]] panic at line 159. *)
Lemma tick_negative_top_panics interval top sinceStart g r :
  top < 0 -> tick interval top sinceStart g r = Go.Panics Go.SliceBounds.
Proof.
  intros Htop. unfold tick.
  destruct (Range g (prevSnapshots r)) as [items snaps].
  rewrite truncate_top_negative by done. done.
Qed.

(** C1.  The reporter started with [-stats=500ms]: every tick divides by
    [uint64(interval.Seconds()) = 0] and panics, which ends the process. *)
Theorem tick_half_second_interval_panics (top sinceStart : Z) (g : Globals)
    (r : Reporter) :
  interval_secs (500 * Go.Millisecond) = 0
  /\ Go.panicked (tick (500 * Go.Millisecond) top sinceStart g r) = true.
Proof.
  assert (Hsecs : interval_secs (500 * Go.Millisecond) = 0)
    by (vm_compute; reflexivity).
  split; [exact Hsecs|]. apply tick_zero_secs_panics, Hsecs.
Qed.

Lemma StronglySorted_weaken {A} (R1 R2 : A -> A -> Prop) (l : list A) :
  (forall a b, R1 a b -> R2 a b) -> StronglySorted R1 l -> StronglySorted R2 l.
Proof.
  intros HR. induction 1 as [|a l Hl IH Hall]; constructor; [exact IH|].
  eapply Forall_impl; [exact Hall|]. intros b. apply HR.
Qed.

Lemma sub64_exact a b : 0 <= b <= a -> a <= Go.uint64_max -> Go.sub64 a b = a - b.
Proof. intros Hb Ha. unfold Go.sub64. apply uint64_small. lia. Qed.

(** With a snapshot not above the current counter, [dreq] is the plain
    difference. *)
Lemma dreq_of_exact hp snaps k p :
  0 <= requests (snapshot_of snaps k) <= requests (deref hp p) ->
  requests (deref hp p) <= Go.uint64_max ->
  dreq_of hp snaps (k, p)
  = requests (deref hp p) - requests (snapshot_of snaps k).
Proof. intros Hle Hmax. unfold dreq_of. cbn. by apply sub64_exact. Qed.

(** C4.  Deltas and rates of a tick: with previous totals not above the
    current ones and an interval of [s >= 1] whole seconds, the tick reports
    [deltaRequests / s] and [deltaBytes / s] (integer division) for the
    deltas [current - previous], the [float64] quotient
    [deltaBytes / deltaRequests] as average when [deltaRequests > 0] and
    [0.0] otherwise, and stores the current totals as the next baseline. *)
Theorem tick_deltas_and_rates (interval top sinceStart s : Z) (g : Globals)
    (r : Reporter) :
  0 <= top ->
  interval_secs interval = s -> 0 < s ->
  0 <= prevTotalReq r <= totalRequests g -> totalRequests g <= Go.uint64_max ->
  0 <= prevTotalBytes r <= totalBytes g -> totalBytes g <= Go.uint64_max ->
  let deltaRequests := totalRequests g - prevTotalReq r in
  let deltaBytes := totalBytes g - prevTotalBytes r in
  exists r' line ls,
    tick interval top sinceStart g r = Go.Returns (r', (line, ls))
    /\ req_per_s line = deltaRequests / s
    /\ bytes_per_s line = deltaBytes / s
    /\ avg_req line
       = (if 0 <? deltaRequests
          then Go.f64_div (Go.f64_of_Z deltaBytes) (Go.f64_of_Z deltaRequests)
          else Go.f64_zero)
    /\ prevTotalReq r' = totalRequests g
    /\ prevTotalBytes r' = totalBytes g.
Proof.
  intros Htop Hs Hpos Hreq Hreq' Hbytes Hbytes'. cbn zeta.
  eexists _, _, _. split.
  { apply tick_returns; [done|lia]. }
  cbn. rewrite !sub64_exact, Hs by done. done.
Qed.

(** C5.  Top hosts of a tick: the lines emitted are those of the first [top]
    items of a descending arrangement of the candidates, the candidates being
    exactly the hosts whose request delta is positive; no host left out has a
    larger delta than an emitted one; and the stored snapshot of every host
    in the map, emitted or not, becomes its current counters. *)
Theorem tick_top_hosts (interval top sinceStart : Z) (g : Globals)
    (r : Reporter) :
  0 <= top -> interval_secs interval <> 0 ->
  exists r' line kept rest,
    tick interval top sinceStart g r
      = Go.Returns (r', (line, line_of (interval_secs interval) <$> kept))
    /\ kept ++ rest ≡ₚ candidates g (prevSnapshots r)
    /\ (forall it, it ∈ candidates g (prevSnapshots r) <->
          exists k p, hostMap g !! k = Some p
                      /\ 0 < dreq_of (heap g) (prevSnapshots r) (k, p)
                      /\ it = item_of (heap g) (prevSnapshots r) (k, p))
    /\ length kept
       = Nat.min (Z.to_nat top) (length (candidates g (prevSnapshots r)))
    /\ StronglySorted (fun a b => item_req b <= item_req a) kept
    /\ (forall x y, x ∈ kept -> y ∈ rest -> item_req y <= item_req x)
    /\ (forall k p, hostMap g !! k = Some p ->
          prevSnapshots r' !! k = Some (current (heap g) p))
    /\ (forall k, hostMap g !! k = None ->
          prevSnapshots r' !! k = prevSnapshots r !! k).
Proof.
  intros Htop Hsecs.
  pose proof (Range_eq g (prevSnapshots r)) as [Hitems Hsnaps].
  set (sorted := sort_Slice less (Range g (prevSnapshots r)).1).
  assert (Hperm : sorted ≡ₚ candidates g (prevSnapshots r)).
  { unfold sorted. rewrite sort_Slice_perm, Hitems. done. }
  assert (Hsorted : StronglySorted (fun a b => item_req b <= item_req a) sorted).
  { unfold sorted. eapply StronglySorted_weaken; [|apply sort_Slice_sorted].
    intros a b. unfold less. intros Hab%Z.ltb_ge. exact Hab. }
  rewrite <- (take_drop (Z.to_nat top) sorted) in Hperm, Hsorted.
  eexists _, _, (take (Z.to_nat top) sorted), (drop (Z.to_nat top) sorted).
  split; [apply tick_returns; done|].
  split; [exact Hperm|].
  split; [apply elem_of_candidates|].
  split.
  { rewrite length_take. f_equal.
    rewrite <- Hperm, take_drop. done. }
  split; [eapply StronglySorted_app_1_l, Hsorted|].
  split.
  { intros x y Hx Hy.
    apply (StronglySorted_app_1_elem_of _ _ _ x y Hsorted Hx Hy). }
  cbn. split.
  - intros k p Hk. rewrite Hsnaps, Hk. done.
  - intros k Hk. rewrite Hsnaps, Hk. done.
Qed.

(** ** Interleaved execution *)

Lemma tally_app w ts1 ts2 : tally w (ts1 ++ ts2) = tally w ts1 + tally w ts2.
Proof. induction ts1 as [|t ts1 IH]; cbn; lia. Qed.

Lemma tally_insert w (ts : list Goroutine) i t t' :
  ts !! i = Some t -> tally w (<[i := t']> ts) = tally w ts - w t + w t'.
Proof.
  revert i. induction ts as [|t0 ts IH]; intros [|i] Hi; try done.
  - injection Hi as ->. cbn. lia.
  - change (w t0 + tally w (<[i := t']> ts) = w t0 + tally w ts - w t + w t').
    rewrite (IH i Hi). lia.
Qed.

Lemma tally_zero w (ts : list Goroutine) :
  (forall t, t ∈ ts -> w t = 0) -> tally w ts = 0.
Proof.
  induction ts as [|t ts IH]; intros Hw; cbn; [done|].
  rewrite (Hw t), IH; [done| |left]. intros t' Ht'. apply Hw. by right.
Qed.

Lemma tally_le w1 w2 (ts : list Goroutine) :
  (forall t, t ∈ ts -> w1 t <= w2 t) -> tally w1 ts <= tally w2 ts.
Proof.
  induction ts as [|t ts IH]; intros Hw; cbn; [done|].
  pose proof (Hw t ltac:(left)).
  assert (tally w1 ts <= tally w2 ts) by (apply IH; intros; apply Hw; by right).
  lia.
Qed.

Lemma uint64_step n d : Go.AddUint64 (Go.uint64 n) d = Go.uint64 (n + d).
Proof. unfold Go.AddUint64. apply uint64_add_l. Qed.

(** The request fields a goroutine classifies by never change. *)
Lemma reqSize_respond c : reqSize (respond c) = reqSize c.
Proof.
  unfold reqSize, respond. cbn [Header Body Method RequestURI]. reflexivity.
Qed.

Lemma hostKey_respond c : hostKey (respond c) = hostKey c.
Proof. unfold hostKey, respond. cbn [Host]. reflexivity. Qed.

Lemma step_h_key g t : key (step_h g t).2 = key t.
Proof. unfold key. step_cases g t; rewrite ?hostKey_respond; reflexivity. Qed.

Lemma step_h_reqSize g t : reqSize (ctx (step_h g t).2) = reqSize (ctx t).
Proof. step_cases g t; rewrite ?reqSize_respond; reflexivity. Qed.

Lemma step_h_Method g t : Method (ctx (step_h g t).2) = Method (ctx t).
Proof. step_cases g t; reflexivity. Qed.

Lemma totals_inv_init : totals_inv initSystem.
Proof. split; reflexivity. Qed.

Lemma step_totalBytes g t n :
  totalBytes g = Go.uint64 n ->
  totalBytes (step_h g t).1
  = Go.uint64 (n - added_bytes t + added_bytes (step_h g t).2).
Proof.
  intros Hn. unfold added_bytes. step_cases g t;
    rewrite Hn, ?uint64_step, ?reqSize_respond; f_equal; lia.
Qed.

Lemma step_totalRequests g t n :
  totalRequests g = Go.uint64 n ->
  totalRequests (step_h g t).1
  = Go.uint64 (n - added_request t + added_request (step_h g t).2).
Proof.
  intros Hn. unfold added_request. step_cases g t;
    rewrite Hn, ?uint64_step; f_equal; lia.
Qed.

Lemma step_methods g t cat n (field : methodStats -> Z) :
  (forall ms, field (count_method cat ms) = Go.AddUint64 (field ms) 1) ->
  (forall ms cat', cat' <> cat -> field (count_method cat' ms) = field ms) ->
  field (methods g) = Go.uint64 n ->
  field (methods (step_h g t).1)
  = Go.uint64 (n - added_method cat t + added_method cat (step_h g t).2).
Proof.
  intros Hsame Hother Hn. unfold added_method. step_cases g t;
    try (rewrite Hn; case_decide; f_equal; lia).
  case_decide as Hcat.
  - rewrite Hcat, Hsame, Hn, uint64_step. f_equal; lia.
  - rewrite Hother, Hn by done. f_equal; lia.
Qed.

Lemma totals_inv_step s s' : sys_step s s' -> totals_inv s -> totals_inv s'.
Proof.
  intros Hstep [Hb Hr Hg Hp Ho]. destruct Hstep as [s c|s i t Hi].
  - split; cbn; rewrite tally_app; cbn; rewrite ?Z.add_0_r; try assumption;
      unfold added_method; cbn; case_decide; rewrite Z.add_0_r; assumption.
  - split; cbn; rewrite (tally_insert _ _ _ _ _ Hi).
    + by apply step_totalBytes.
    + by apply step_totalRequests.
    + apply (step_methods _ _ GET _ get); [done| |done]. by intros ms [].
    + apply (step_methods _ _ POST _ post); [done| |done]. by intros ms [].
    + apply (step_methods _ _ OTHER _ other); [done| |done]. by intros ms [].
Qed.

(** *** Effect of one atomic action on the map and the heap *)

Lemma step_hostMap_stable g t k p :
  hostMap g !! k = Some p -> hostMap (step_h g t).1 !! k = Some p.
Proof.
  intros Hk. step_cases g t; try done.
  destruct (decide (hostKey c = k)) as [<-|Hne]; [congruence|].
  by rewrite lookup_insert_ne.
Qed.

Lemma step_hostMap_new g t k p :
  hostMap (step_h g t).1 !! k = Some p ->
  hostMap g !! k = Some p
  \/ (k = key t /\ unpublished t = Some p /\ hostMap g !! k = None).
Proof.
  unfold key, unpublished. step_cases g t; auto.
  destruct (decide (hostKey c = k)) as [<-|Hne].
  - rewrite lookup_insert_eq. intros [= <-]. auto.
  - rewrite lookup_insert_ne by done. auto.
Qed.

Lemma step_heap_length g t :
  (length (heap g) <= length (heap (step_h g t).1))%nat.
Proof.
  step_cases g t; rewrite ?length_app, ?length_alter; cbn; lia.
Qed.

Lemma step_heap_lookup g t n :
  (n < length (heap g))%nat -> holds t <> Some n ->
  heap (step_h g t).1 !! n = heap g !! n.
Proof.
  unfold holds. intros Hn. step_cases g t; intros Hholds; try done.
  - by rewrite lookup_app_l.
  - rewrite list_lookup_alter_ne; [done|]. by intros ->.
  - rewrite list_lookup_alter_ne; [done|]. by intros ->.
Qed.

Lemma step_heap_held g t p hs :
  holds t = Some p -> heap g !! p = Some hs ->
  heap (step_h g t).1 !! p
  = Some (match at_pc t with
          | AtHostRequests _ => add_requests 1 hs
          | _ => add_bytes (reqSize (ctx t)) hs
          end).
Proof.
  unfold holds. step_cases g t; intros Hholds Hp; try done;
    injection Hholds as ->; by rewrite list_lookup_alter_eq, Hp.
Qed.

Lemma step_unpublished g t n :
  unpublished (step_h g t).2 = Some n ->
  n = length (heap g)
  /\ heap (step_h g t).1 = heap g ++ [zeroHostStats]
  /\ hostMap (step_h g t).1 = hostMap g.
Proof.
  unfold unpublished. step_cases g t; try done. by intros [= <-].
Qed.

Lemma step_entered g t :
  (entered t = true -> is_Some (hostMap g !! key t)) ->
  entered (step_h g t).2 = true ->
  is_Some (hostMap (step_h g t).1 !! key (step_h g t).2).
Proof.
  unfold entered, key. step_cases g t; rewrite ?hostKey_respond;
    intros Hold Hnew; try done; try (by apply Hold); try by eexists.
  rewrite lookup_insert_eq. by eexists.
Qed.

Lemma step_holds g t p :
  (forall q, holds t = Some q -> hostMap g !! key t = Some q) ->
  holds (step_h g t).2 = Some p ->
  hostMap (step_h g t).1 !! key (step_h g t).2 = Some p.
Proof.
  unfold holds, key. step_cases g t; intros Hold Hnew; try done;
    try (injection Hnew as <-); try congruence; try (by apply Hold).
  by rewrite lookup_insert_eq.
Qed.

Lemma step_host_weight_idle g t k :
  holds t = None ->
  added_host_request k (step_h g t).2 = added_host_request k t
  /\ added_host_bytes k (step_h g t).2 = added_host_bytes k t.
Proof.
  unfold holds, added_host_request, added_host_bytes, key.
  step_cases g t; intros Hh; try discriminate Hh;
    rewrite ?hostKey_respond, ?reqSize_respond; split; case_decide;
    reflexivity.
Qed.

Lemma elem_of_insert_inv (ts : list Goroutine) i t' t0 :
  t0 ∈ <[i := t']> ts -> t0 = t' \/ t0 ∈ ts.
Proof.
  intros [j Hj]%list_elem_of_lookup.
  apply list_lookup_insert_Some in Hj as [(_ & -> & _)|[_ Hj]]; [by left|].
  right. by eapply list_elem_of_lookup_2.
Qed.

Lemma lookup_insert_inv (ts : list Goroutine) i j t' t0 :
  <[i := t']> ts !! j = Some t0 ->
  (j = i /\ t0 = t') \/ (j <> i /\ ts !! j = Some t0).
Proof.
  intros Hj. apply list_lookup_insert_Some in Hj as [(-> & -> & _)|[Hne Hj]];
    [by left|by right].
Qed.

Lemma lookup_snoc_inv (ts : list Goroutine) j t' t0 :
  (ts ++ [t']) !! j = Some t0 ->
  ts !! j = Some t0 \/ (j = length ts /\ t0 = t').
Proof.
  intros Hj. apply lookup_app_Some in Hj as [Hj|[Hge Hj]]; [by left|].
  right. destruct (j - length ts)%nat as [|m] eqn:Hm; [|done].
  injection Hj as <-. split; [lia|done].
Qed.

(** Whatever the other goroutines have done to the shared variables, each
    action brings a goroutine closer to its return, and it returns with the
    fixed response. *)
Lemma step_h_progress g t :
  (remaining (at_pc (step_h g t).2) <= pred (remaining (at_pc t)))%nat.
Proof. step_cases g t; lia. Qed.

Lemma step_h_response g t resp :
  (at_pc t = AtReturn -> Resp (ctx t) = resp) ->
  resp = {| StatusCode := 200; ContentType := "text/plain; charset=utf-8";
            ResponseBody := "OK" |} ->
  at_pc (step_h g t).2 = AtReturn ->
  Resp (ctx (step_h g t).2) = resp.
Proof.
  intros Hold ->. revert Hold.
  step_cases g t; intros Hold Hnew; try discriminate Hnew;
    [reflexivity|by apply Hold].
Qed.

Lemma returned_goroutines_OK s t :
  reachable s -> t ∈ gors s -> at_pc t = AtReturn ->
  Resp (ctx t)
  = {| StatusCode := 200; ContentType := "text/plain; charset=utf-8";
       ResponseBody := "OK" |}.
Proof.
  intros Hreach. revert t. revert s Hreach.
  apply (rtc_ind_r (R := sys_step)
           (fun s => forall t, t ∈ gors s -> at_pc t = AtReturn ->
                     Resp (ctx t)
                     = {| StatusCode := 200;
                          ContentType := "text/plain; charset=utf-8";
                          ResponseBody := "OK" |})).
  - intros t Ht. by apply elem_of_nil in Ht.
  - intros s0 s1 _ [s c|s i t0 Hi] IH t Ht Hret; cbn in Ht.
    + apply elem_of_app in Ht as [Ht|Ht%list_elem_of_singleton];
        [by apply IH|by subst t].
    + apply elem_of_insert_inv in Ht as [->|Ht]; [|by apply IH].
      apply step_h_response; [|reflexivity|exact Hret].
      apply IH. by eapply list_elem_of_lookup_2.
Qed.

(** *** The pointer discipline is invariant *)

Lemma pointers_inv_init : pointers_inv initSystem.
Proof.
  split; cbn.
  - intros t Ht. by apply elem_of_nil in Ht.
  - intros t p Ht. by apply elem_of_nil in Ht.
  - intros k p Hk. by rewrite lookup_empty in Hk.
  - intros k1 k2 p Hk. by rewrite lookup_empty in Hk.
  - intros i t n Hi. by rewrite lookup_nil in Hi.
Qed.

Lemma pointers_inv_accept s c : pointers_inv s -> pointers_inv (spawn s c).
Proof.
  intros [Hent Hholds Halloc Hinj Hfresh]. split; cbn.
  - intros t [Ht|Ht%list_elem_of_singleton]%elem_of_app;
      [by apply Hent|by subst t].
  - intros t p [Ht|Ht%list_elem_of_singleton]%elem_of_app;
      [by apply Hholds|by subst t].
  - exact Halloc.
  - exact Hinj.
  - intros i t n [Hi|[-> ->]]%lookup_snoc_inv Hun; [|done].
    destruct (Hfresh i t n Hi Hun) as (Hz & Hnot & Huniq).
    split; [done|]. split; [done|].
    intros j t' [Hj|[-> ->]]%lookup_snoc_inv Hun'; [|done].
    by eapply Huniq.
Qed.

Lemma pointers_inv_run s i t :
  gors s !! i = Some t ->
  pointers_inv s ->
  pointers_inv {| glob := (step_h (glob s) t).1;
                  gors := <[i := (step_h (glob s) t).2]> (gors s) |}.
Proof.
  intros Hi [Hent Hholds Halloc Hinj Hfresh].
  assert (Hin : t ∈ gors s) by (by eapply list_elem_of_lookup_2).
  split; cbn.
  - intros t0 [->|Ht0]%elem_of_insert_inv Hen.
    + apply step_entered; [|done]. by apply Hent.
    + destruct (Hent t0 Ht0 Hen) as [p Hp]. exists p.
      by apply step_hostMap_stable.
  - intros t0 p [->|Ht0]%elem_of_insert_inv Hh.
    + apply step_holds; [|done]. intros q. by apply Hholds.
    + by apply step_hostMap_stable, Hholds.
  - intros k p [Hk|(-> & Hun & _)]%step_hostMap_new.
    + pose proof (Halloc k p Hk). pose proof (step_heap_length (glob s) t). lia.
    + destruct (Hfresh i t p Hi Hun) as (Hz%lookup_lt_Some & _).
      pose proof (step_heap_length (glob s) t). lia.
  - intros k1 k2 p [Hk1|(-> & Hun1 & _)]%step_hostMap_new
                   [Hk2|(-> & Hun2 & _)]%step_hostMap_new.
    + by eapply Hinj.
    + destruct (Hfresh i t p Hi Hun2) as (_ & Hnot & _). by destruct (Hnot k1).
    + destruct (Hfresh i t p Hi Hun1) as (_ & Hnot & _). by destruct (Hnot k2).
    + done.
  - intros j t0 n [[-> ->]|[Hne Hj]]%lookup_insert_inv Hun.
    + destruct (step_unpublished _ _ _ Hun) as (-> & Hheap & Hmap).
      rewrite Hheap, Hmap. split; [|split].
      * by rewrite lookup_app_r, Nat.sub_diag.
      * intros k Hk. pose proof (Halloc k _ Hk). lia.
      * intros j t1 [[-> ->]|[Hne Hj]]%lookup_insert_inv Hun1; [done|].
        destruct (Hfresh j t1 _ Hj Hun1) as (Hz%lookup_lt_Some & _). lia.
    + destruct (Hfresh j t0 n Hj Hun) as (Hz & Hnot & Huniq).
      split; [|split].
      * rewrite step_heap_lookup; [done|by eapply lookup_lt_Some|].
        intros Hh. by destruct (Hnot (key t)); apply Hholds.
      * intros k [Hk|(-> & Hun' & _)]%step_hostMap_new; [by destruct (Hnot k)|].
        destruct Hne. symmetry. by eapply Huniq.
      * intros j' t1 [[-> ->]|[Hne' Hj']]%lookup_insert_inv Hun1.
        -- destruct (step_unpublished _ _ _ Hun1) as (-> & _).
           apply lookup_lt_Some in Hz. lia.
        -- by eapply Huniq.
Qed.

Lemma pointers_inv_step s s' : sys_step s s' -> pointers_inv s -> pointers_inv s'.
Proof.
  intros [s0 c|s0 i t Hi]; [apply pointers_inv_accept|by apply pointers_inv_run].
Qed.

(** *** Per-host counters match what the goroutines have added *)

Lemma hosts_inv_init : hosts_inv initSystem.
Proof. split; cbn. intros k p Hk. by rewrite lookup_empty in Hk. Qed.

Lemma hosts_inv_accept s c : hosts_inv s -> hosts_inv (spawn s c).
Proof.
  intros [Hhost]. split; cbn. intros k p Hk.
  destruct (Hhost k p Hk) as (hs & Hp & Hr & Hb). exists hs.
  rewrite !tally_app. cbn. unfold added_host_request, added_host_bytes. cbn.
  case_decide; rewrite !Z.add_0_r; done.
Qed.

Lemma not_entered_weights t k :
  entered t = false ->
  added_host_request k t = 0 /\ added_host_bytes k t = 0.
Proof.
  unfold entered, added_host_request, added_host_bytes.
  destruct (at_pc t); intros Hen; try discriminate Hen;
    split; case_decide; reflexivity.
Qed.

Lemma host_weights_zero (ts : list Goroutine) k :
  (forall t, t ∈ ts ->
     added_host_request k t = 0 /\ added_host_bytes k t = 0) ->
  tally (added_host_request k) ts = 0 /\ tally (added_host_bytes k) ts = 0.
Proof. intros Hts. split; apply tally_zero; intros t Ht; by apply Hts. Qed.

Lemma hosts_inv_run s i t :
  gors s !! i = Some t ->
  pointers_inv s -> hosts_inv s ->
  hosts_inv {| glob := (step_h (glob s) t).1;
               gors := <[i := (step_h (glob s) t).2]> (gors s) |}.
Proof.
  intros Hi [Hent Hholds Halloc Hinj Hfresh] [Hhost].
  assert (Hin : t ∈ gors s) by (by eapply list_elem_of_lookup_2).
  split; cbn. intros k p [Hk|(-> & Hun & Hnone)]%step_hostMap_new.
  - (* an entry that was already stored *)
    destruct (Hhost k p Hk) as (hs & Hp & Hr & Hb).
    rewrite !(tally_insert _ _ _ _ _ Hi).
    destruct (holds t) as [q|] eqn:Hh.
    + (* the goroutine increments through its pointer [q] *)
      pose proof (Hholds t q Hin Hh) as Hq.
      destruct (decide (q = p)) as [->|Hne].
      * assert (Hkey : key t = k) by (by eapply Hinj).
        rewrite (step_heap_held _ _ _ _ Hh Hp). eexists; split; [done|].
        set (nr := tally (added_host_request k) (gors s)) in *.
        set (nb := tally (added_host_bytes k) (gors s)) in *.
        unfold added_host_request, added_host_bytes.
        rewrite step_h_key, step_h_reqSize, !decide_True by done.
        revert Hh. unfold holds. destruct t as [c []]; cbn;
          intros Hh; try discriminate Hh;
          rewrite ?Hr, ?Hb, ?uint64_step; split; f_equal; lia.
      * assert (Hkey : key t <> k) by (intros <-; congruence).
        rewrite step_heap_lookup, Hp;
          [|by eapply lookup_lt_Some|congruence].
        exists hs. split; [done|].
        set (nr := tally (added_host_request k) (gors s)) in *.
        set (nb := tally (added_host_bytes k) (gors s)) in *.
        unfold added_host_request, added_host_bytes.
        rewrite step_h_key, !decide_False by done.
        rewrite Hr, Hb. split; f_equal; lia.
    + (* the goroutine touches no entry in this action *)
      rewrite step_heap_lookup, Hp; [|by eapply lookup_lt_Some|congruence].
      exists hs. split; [done|].
      destruct (step_host_weight_idle (glob s) t k Hh) as [-> ->].
      rewrite Hr, Hb. split; f_equal; lia.
  - (* the entry is stored by this very action *)
    destruct (Hfresh i t p Hi Hun) as (Hz & _ & _).
    assert (Hh : holds t = None).
    { revert Hun. unfold unpublished, holds. by destruct (at_pc t). }
    rewrite step_heap_lookup, Hz; [|by eapply lookup_lt_Some|congruence].
    exists zeroHostStats. split; [done|].
    destruct (host_weights_zero
                (<[i := (step_h (glob s) t).2]> (gors s)) (key t)) as [-> ->];
      [|done].
    intros t0 [->|Ht0]%elem_of_insert_inv.
    + destruct (step_host_weight_idle (glob s) t (key t) Hh) as [-> ->].
      apply not_entered_weights. revert Hun. unfold unpublished, entered.
      by destruct (at_pc t).
    + destruct (entered t0) eqn:Hen; [|by apply not_entered_weights].
      unfold added_host_request, added_host_bytes.
      case_decide as Hkey; [|done].
      destruct (Hent t0 Ht0 Hen) as [q Hq]. congruence.
Qed.

Lemma hosts_inv_step s s' :
  sys_step s s' -> pointers_inv s -> hosts_inv s -> hosts_inv s'.
Proof.
  intros [s0 c|s0 i t Hi] Hptr;
    [apply hosts_inv_accept|by apply hosts_inv_run].
Qed.

(** Every state the server can reach satisfies the three invariants. *)
Lemma reachable_inv s :
  reachable s -> totals_inv s /\ pointers_inv s /\ hosts_inv s.
Proof.
  unfold reachable. intros Hreach.
  revert s Hreach.
  apply (rtc_ind_r (R := sys_step)
           (fun s => totals_inv s /\ pointers_inv s /\ hosts_inv s)).
  - split; [|split].
    + apply totals_inv_init.
    + apply pointers_inv_init.
    + apply hosts_inv_init.
  - intros s0 s1 _ Hstep (Ht & Hp & Hh). split; [|split].
    + by eapply totals_inv_step.
    + by eapply pointers_inv_step.
    + by eapply hosts_inv_step.
Qed.

Lemma perform_steps s a : rtc sys_step s (perform s a).
Proof.
  destruct a as [c|i]; cbn.
  - apply rtc_once, step_accept.
  - destruct (gors s !! i) as [t|] eqn:Hi; [|apply rtc_refl].
    by apply rtc_once, step_run.
Qed.

Lemma schedule_steps acts s : rtc sys_step s (schedule acts s).
Proof.
  revert s. induction acts as [|a acts IH]; intros s; [apply rtc_refl|].
  cbn. eapply rtc_trans; [apply perform_steps|apply IH].
Qed.

Lemma schedule_app acts1 acts2 s :
  schedule (acts1 ++ acts2) s = schedule acts2 (schedule acts1 s).
Proof. unfold schedule. apply foldl_app. Qed.

Lemma schedule_reachable acts : reachable (schedule acts initSystem).
Proof. apply schedule_steps. Qed.

Lemma hostMap_stable_steps s s' k p :
  rtc sys_step s s' ->
  hostMap (glob s) !! k = Some p -> hostMap (glob s') !! k = Some p.
Proof.
  induction 1 as [|s0 s1 s2 Hstep _ IH]; [done|]. intros Hk. apply IH.
  destruct Hstep as [s0 c|s0 i t Hi]; [done|]. by apply step_hostMap_stable.
Qed.

(** *** Sequential service is one of the interleavings *)

Lemma perform_run_last g (ts : list Goroutine) t :
  perform {| glob := g; gors := ts ++ [t] |} (Run (length ts))
  = {| glob := (step_h g t).1; gors := ts ++ [(step_h g t).2] |}.
Proof.
  cbn. rewrite lookup_app_r, Nat.sub_diag by lia. cbn.
  f_equal. rewrite insert_app_r_alt, Nat.sub_diag by lia. done.
Qed.

Lemma schedule_run_last n g (ts : list Goroutine) t :
  schedule (replicate n (Run (length ts))) {| glob := g; gors := ts ++ [t] |}
  = {| glob := (run_h n g t).1; gors := ts ++ [(run_h n g t).2] |}.
Proof.
  revert g t. induction n as [|n IH]; intros g t; [done|].
  cbn [replicate schedule foldl run_h]. rewrite perform_run_last.
  destruct (step_h g t) as [g1 t1]. apply IH.
Qed.

Lemma serve_one_steps s c :
  rtc sys_step s {| glob := (h (glob s) c).1; gors := gors s ++ [returned c] |}.
Proof.
  eapply rtc_l; [apply (step_accept s c)|]. unfold spawn.
  pose proof (schedule_steps (replicate 9 (Run (length (gors s))))
                {| glob := glob s;
                   gors := gors s ++ [{| ctx := c; at_pc := AtAddBytes |}] |})
    as Hsteps.
  rewrite schedule_run_last, run_h_returns in Hsteps. exact Hsteps.
Qed.

Lemma serve_steps cs s :
  rtc sys_step s {| glob := serve (glob s) cs;
                    gors := gors s ++ (returned <$> cs) |}.
Proof.
  revert s. induction cs as [|c cs IH]; intros s.
  - cbn. rewrite app_nil_r. destruct s. apply rtc_refl.
  - eapply rtc_trans; [apply (serve_one_steps s c)|].
    eapply rtc_trans; [apply IH|]. cbn.
    rewrite <- app_assoc. apply rtc_refl.
Qed.

Lemma serve_reachable cs :
  reachable {| glob := serve initGlobals cs; gors := returned <$> cs |}.
Proof. apply (serve_steps cs initSystem). Qed.

(** *** Counters only grow *)

Lemma reqSize_nonneg c : 0 <= reqSize c.
Proof. pose proof (reqSize_range c) as Hc. unfold Go.is_uint64 in Hc. lia. Qed.

Lemma advancing_added_bytes : advancing added_bytes (fun t => reqSize (ctx t)).
Proof.
  split; unfold added_bytes.
  - done.
  - intros t. pose proof (reqSize_nonneg (ctx t)). destruct (at_pc t); lia.
  - intros g t. pose proof (reqSize_nonneg (ctx t)).
    step_cases g t; cbn in *; rewrite ?reqSize_respond; lia.
  - intros t. pose proof (reqSize_nonneg (ctx t)). destruct (at_pc t); lia.
Qed.

Lemma advancing_added_request : advancing added_request (fun _ => 1).
Proof.
  split; unfold added_request.
  - done.
  - intros t. destruct (at_pc t); lia.
  - intros g t. step_cases g t; lia.
  - intros t. destruct (at_pc t); lia.
Qed.

Lemma advancing_added_method cat : advancing (added_method cat) (fun _ => 1).
Proof.
  split; unfold added_method.
  - intros c. cbn. by case_decide.
  - intros t. case_decide; destruct (at_pc t); lia.
  - intros g t. step_cases g t; case_decide; lia.
  - intros t. case_decide; destruct (at_pc t); lia.
Qed.

Lemma advancing_added_host_request k :
  advancing (added_host_request k) (fun _ => 1).
Proof.
  split; unfold added_host_request, key.
  - intros c. cbn. by case_decide.
  - intros t. case_decide; destruct (at_pc t); lia.
  - intros g t. step_cases g t; rewrite ?hostKey_respond; case_decide; lia.
  - intros t. case_decide; destruct (at_pc t); lia.
Qed.

Lemma advancing_added_host_bytes k :
  advancing (added_host_bytes k) (fun t => reqSize (ctx t)).
Proof.
  split; unfold added_host_bytes, key.
  - intros c. cbn. by case_decide.
  - intros t. pose proof (reqSize_nonneg (ctx t)).
    case_decide; destruct (at_pc t); lia.
  - intros g t. pose proof (reqSize_nonneg (ctx t)).
    step_cases g t; cbn in *; rewrite ?hostKey_respond, ?reqSize_respond;
      case_decide; lia.
  - intros t. pose proof (reqSize_nonneg (ctx t)).
    case_decide; destruct (at_pc t); lia.
Qed.

Lemma tally_nonneg w cap ts : advancing w cap -> 0 <= tally w ts.
Proof.
  intros Hw. induction ts as [|t ts IH]; cbn; [lia|].
  pose proof (adv_nonneg _ _ Hw t). lia.
Qed.

Lemma tally_step w cap s s' :
  advancing w cap -> sys_step s s' -> tally w (gors s) <= tally w (gors s').
Proof.
  intros Hw [s0 c|s0 i t Hi]; cbn.
  - rewrite tally_app. cbn. rewrite (adv_start _ _ Hw). lia.
  - rewrite (tally_insert _ _ _ _ _ Hi).
    pose proof (adv_step _ _ Hw (glob s0) t). lia.
Qed.

Lemma tally_steps w cap s s' :
  advancing w cap -> rtc sys_step s s' ->
  tally w (gors s) <= tally w (gors s').
Proof.
  intros Hw. induction 1 as [|s0 s1 s2 Hstep _ IH]; [lia|].
  pose proof (tally_step _ _ _ _ Hw Hstep). lia.
Qed.

Lemma tally_ones (ts : list Goroutine) :
  tally (fun _ => 1) ts = Z.of_nat (length ts).
Proof. induction ts as [|t ts IH]; cbn [tally length]; lia. Qed.

Lemma tally_sizes (ts : list Goroutine) :
  tally (fun t => reqSize (ctx t)) ts = total_size (ctx <$> ts).
Proof.
  induction ts as [|t ts IH]; [done|].
  rewrite fmap_cons, total_size_cons. cbn [tally]. lia.
Qed.

(** Between two states of an execution a counter that has not wrapped by the
    later state has not decreased. *)
Lemma counter_steps w cap s s' bound x x' :
  advancing w cap -> rtc sys_step s s' ->
  tally cap (gors s') <= bound -> bound <= Go.uint64_max ->
  x = Go.uint64 (tally w (gors s)) -> x' = Go.uint64 (tally w (gors s')) ->
  x <= x'.
Proof.
  intros Hw Hsteps Hcap Hbound -> ->.
  pose proof (tally_steps _ _ _ _ Hw Hsteps).
  pose proof (tally_nonneg _ _ (gors s) Hw).
  assert (tally w (gors s') <= tally cap (gors s'))
    by (apply tally_le; intros t _; apply (adv_cap _ _ Hw)).
  rewrite !uint64_small by lia. lia.
Qed.

(** C8.  Monotone counters: between a reachable state and any later state of
    the same execution, no counter has decreased - the two totals, the three
    method counters and the pair of every host entry - provided the requests
    accepted by the later state, in number and in total size, do not exceed
    the largest [uint64]. *)
Theorem counters_never_decrease (s s' : System) :
  reachable s -> rtc sys_step s s' ->
  Z.of_nat (length (gors s')) <= Go.uint64_max ->
  total_size (ctx <$> gors s') <= Go.uint64_max ->
  counters_le (glob s) (glob s').
Proof.
  intros Hs Hsteps Hlen Hsize.
  assert (Hs' : reachable s') by (by eapply rtc_trans).
  apply reachable_inv in Hs as ([Hb Hr Hg Hp Ho] & _ & [Hhost]).
  apply reachable_inv in Hs' as ([Hb' Hr' Hg' Hp' Ho'] & _ & [Hhost']).
  rewrite <- tally_ones in Hlen. rewrite <- tally_sizes in Hsize.
  assert (Hcount : forall w x x',
    advancing w (fun _ => 1) ->
    x = Go.uint64 (tally w (gors s)) -> x' = Go.uint64 (tally w (gors s')) ->
    x <= x').
  { intros w x x' Hw.
    by apply (counter_steps w (fun _ => 1) s s' Go.uint64_max). }
  assert (Hsum : forall w x x',
    advancing w (fun t => reqSize (ctx t)) ->
    x = Go.uint64 (tally w (gors s)) -> x' = Go.uint64 (tally w (gors s')) ->
    x <= x').
  { intros w x x' Hw.
    by apply (counter_steps w (fun t => reqSize (ctx t)) s s' Go.uint64_max). }
  unfold counters_le. split; [|split; [|split; [|split; [|split]]]].
  - exact (Hcount _ _ _ advancing_added_request Hr Hr').
  - exact (Hsum _ _ _ advancing_added_bytes Hb Hb').
  - exact (Hcount _ _ _ (advancing_added_method GET) Hg Hg').
  - exact (Hcount _ _ _ (advancing_added_method POST) Hp Hp').
  - exact (Hcount _ _ _ (advancing_added_method OTHER) Ho Ho').
  - intros k p hs Hk Hp0.
    pose proof (hostMap_stable_steps _ _ _ _ Hsteps Hk) as Hk'.
    destruct (Hhost k p Hk) as (hs0 & Hp1 & Hreq & Hbytes).
    destruct (Hhost' k p Hk') as (hs' & Hp2 & Hreq' & Hbytes').
    assert (hs0 = hs) as -> by congruence.
    exists hs'. split; [done|]. split; [done|]. split.
    + exact (Hcount _ _ _ (advancing_added_host_request k) Hreq Hreq').
    + exact (Hsum _ _ _ (advancing_added_host_bytes k) Hbytes Hbytes').
Qed.

(** *** Get-or-create, seen from one handler call and at rest *)

(** Once every goroutine has returned, the tallies of a host count and size
    the requests of that host. *)
Lemma tally_quiescent_host k (ts : list Goroutine) :
  Forall (fun t => at_pc t = AtReturn) ts ->
  tally (added_host_request k) ts
  = Z.of_nat (length (filter (fun t => key t = k) ts))
  /\ tally (added_host_bytes k) ts
     = total_size (ctx <$> filter (fun t => key t = k) ts).
Proof.
  induction 1 as [|t ts Ht _ [IHr IHb]]; [done|].
  assert (Hr : added_host_request k t = if decide (key t = k) then 1 else 0)
    by (unfold added_host_request; by rewrite Ht).
  assert (Hb : added_host_bytes k t
               = if decide (key t = k) then reqSize (ctx t) else 0)
    by (unfold added_host_bytes; by rewrite Ht).
  cbn [tally]. rewrite Hr, Hb, IHr, IHb, filter_cons.
  destruct (decide (key t = k)); [|split; lia].
  rewrite fmap_cons, total_size_cons. cbn [length]. split; lia.
Qed.

(** One handler call running alone: it ends with an entry stored for its
    host - the one that was stored before, or else a pointer no host had -
    and that entry carries the call's two increments. *)
Lemma h_lookup_or_create g c :
  (forall k p, hostMap g !! k = Some p -> (p < length (heap g))%nat) ->
  exists pk,
    hostMap (h g c).1 !! hostKey c = Some pk
    /\ (forall p, hostMap g !! hostKey c = Some p -> pk = p)
    /\ (hostMap g !! hostKey c = None -> forall k, hostMap g !! k <> Some pk)
    /\ deref (heap (h g c).1) pk
       = {| requests :=
              Go.AddUint64
                (requests match hostMap g !! hostKey c with
                          | Some p => deref (heap g) p
                          | None => zeroHostStats
                          end) 1;
            bytes :=
              Go.AddUint64
                (bytes match hostMap g !! hostKey c with
                       | Some p => deref (heap g) p
                       | None => zeroHostStats
                       end) (reqSize c) |}.
Proof.
  intros Halloc. rewrite h_eq. cbn [fst hostMap heap].
  destruct (hostMap g !! hostKey c) as [p|] eqn:Hk.
  - exists p. split; [done|]. split; [by intros ? [= ->]|]. split; [done|].
    destruct (lookup_lt_is_Some_2 (heap g) p (Halloc _ _ Hk)) as [hs Hhs].
    unfold deref. by rewrite !list_lookup_alter_eq, Hhs.
  - exists (length (heap g)). split; [by rewrite lookup_insert_eq|].
    split; [done|]. split.
    + intros _ k Hk'. apply Halloc in Hk'. lia.
    + unfold deref.
      by rewrite !list_lookup_alter_eq, lookup_app_r, Nat.sub_diag.
Qed.

(** C6.  Get-or-create of a host entry under any interleaving.  In every
    reachable state: the pointer a goroutine increments through is the entry
    stored for its host, so goroutines of one host share one instance;
    distinct hosts have distinct instances; a stored entry is never replaced;
    an entry is inserted only where none was, and is zero-valued when it is
    inserted; the stored instance holds every increment made for its host,
    none having gone to a discarded duplicate.  Every goroutine past the
    lookup has an entry stored for its host.  [Load] on a stored host hands
    out the stored entry and changes nothing; [LoadOrStore] hands out the
    stored entry if there is one and otherwise stores its own fresh,
    zero-valued object; each of the two increments lands on the stored
    object.  A handler call running alone from the state ends with an entry
    for its host - the existing one, or one no host had - carrying its two
    increments.  Once all goroutines have returned, the entry of each
    request's host counts and sizes exactly the requests of that host
    (modulo [2^64]), however many of them raced to create it.  And the
    lookup always completes: a goroutine holds a pointer right after its
    [Load], or else right after its [LoadOrStore] two actions later, whatever
    the other goroutines do to the shared variables in between. *)
Theorem load_or_create_single_instance (s : System) :
  reachable s ->
  (forall t p, t ∈ gors s -> holds t = Some p ->
     hostMap (glob s) !! key t = Some p)
  /\ (forall t1 t2 p1 p2, t1 ∈ gors s -> t2 ∈ gors s -> key t1 = key t2 ->
        holds t1 = Some p1 -> holds t2 = Some p2 -> p1 = p2)
  /\ (forall k1 k2 p, hostMap (glob s) !! k1 = Some p ->
        hostMap (glob s) !! k2 = Some p -> k1 = k2)
  /\ (forall s' k p, sys_step s s' -> hostMap (glob s) !! k = Some p ->
        hostMap (glob s') !! k = Some p)
  /\ (forall s' k p, sys_step s s' -> hostMap (glob s) !! k = None ->
        hostMap (glob s') !! k = Some p ->
        heap (glob s') !! p = Some zeroHostStats)
  /\ (forall k p, hostMap (glob s) !! k = Some p ->
        exists hs, heap (glob s) !! p = Some hs
          /\ requests hs = Go.uint64 (tally (added_host_request k) (gors s))
          /\ bytes hs = Go.uint64 (tally (added_host_bytes k) (gors s)))
  /\ (forall t, t ∈ gors s -> entered t = true ->
        is_Some (hostMap (glob s) !! key t))
  /\ (forall t p, t ∈ gors s -> at_pc t = AtLoad ->
        hostMap (glob s) !! key t = Some p ->
        step_h (glob s) t = (glob s, goto t (AtHostRequests p)))
  /\ (forall t n, t ∈ gors s -> at_pc t = AtLoadOrStore n ->
        match hostMap (glob s) !! key t with
        | Some p => step_h (glob s) t = (glob s, goto t (AtHostRequests p))
        | None =>
            hostMap (step_h (glob s) t).1 = <[key t := n]> (hostMap (glob s))
            /\ heap (step_h (glob s) t).1 !! n = Some zeroHostStats
            /\ at_pc (step_h (glob s) t).2 = AtHostRequests n
        end)
  /\ (forall t p, t ∈ gors s -> holds t = Some p ->
        exists hs, heap (glob s) !! p = Some hs
          /\ heap (step_h (glob s) t).1 !! p
             = Some (match at_pc t with
                     | AtHostRequests _ => add_requests 1 hs
                     | _ => add_bytes (reqSize (ctx t)) hs
                     end))
  /\ (forall c, exists pk,
        hostMap (h (glob s) c).1 !! hostKey c = Some pk
        /\ (forall p, hostMap (glob s) !! hostKey c = Some p -> pk = p)
        /\ (hostMap (glob s) !! hostKey c = None ->
            forall k, hostMap (glob s) !! k <> Some pk)
        /\ deref (heap (h (glob s) c).1) pk
           = {| requests :=
                  Go.AddUint64
                    (requests match hostMap (glob s) !! hostKey c with
                              | Some p => deref (heap (glob s)) p
                              | None => zeroHostStats
                              end) 1;
                bytes :=
                  Go.AddUint64
                    (bytes match hostMap (glob s) !! hostKey c with
                           | Some p => deref (heap (glob s)) p
                           | None => zeroHostStats
                           end) (reqSize c) |})
  /\ (Forall (fun t => at_pc t = AtReturn) (gors s) ->
      forall t, t ∈ gors s ->
        exists p hs,
          hostMap (glob s) !! key t = Some p
          /\ heap (glob s) !! p = Some hs
          /\ requests hs
             = Go.uint64
                 (Z.of_nat
                    (length (filter (fun t' => key t' = key t) (gors s))))
          /\ bytes hs
             = Go.uint64
                 (total_size
                    (ctx <$> filter (fun t' => key t' = key t) (gors s))))
  /\ (forall t g1 g2 g3, at_pc t = AtLoad ->
        is_Some (holds (run_among [g1] t))
        \/ is_Some (holds (run_among [g1; g2; g3] t))).
Proof.
  intros (_ & [Hent Hholds Halloc Hinj Hfresh] & [Hhost])%reachable_inv.
  split; [exact Hholds|]. split.
  { intros t1 t2 p1 p2 Ht1 Ht2 Hkey Hh1 Hh2.
    pose proof (Hholds t1 p1 Ht1 Hh1) as H1.
    pose proof (Hholds t2 p2 Ht2 Hh2) as H2. congruence. }
  split; [exact Hinj|]. split.
  { intros s' k p Hstep. apply hostMap_stable_steps. by apply rtc_once. }
  split.
  { intros s' k p Hstep Hnone Hsome.
    destruct Hstep as [s c|s i t Hi]; cbn in *; [congruence|].
    apply step_hostMap_new in Hsome as [Hk|(-> & Hun & _)]; [congruence|].
    destruct (Hfresh i t p Hi Hun) as (Hz & _ & _).
    rewrite step_heap_lookup; [done|by eapply lookup_lt_Some|].
    revert Hun. unfold unpublished, holds. by destruct (at_pc t). }
  split; [exact Hhost|]. split; [exact Hent|]. split.
  { intros [c pc0] p _ Hpc Hk. unfold key in Hk. cbn in Hpc, Hk. subst pc0.
    unfold step_h, goto. cbn. by rewrite Hk. }
  split.
  { intros [c pc0] n [i Hi]%list_elem_of_lookup Hpc. cbn in Hpc. subst pc0.
    destruct (Hfresh i _ n Hi eq_refl) as (Hz & _ & _).
    unfold key, step_h, goto. cbn.
    destruct (hostMap (glob s) !! hostKey c) as [p|]; cbn; [done|].
    by split; [|split]. }
  split.
  { intros t p Ht Hh. destruct (Hhost _ _ (Hholds _ _ Ht Hh)) as (hs & Hp & _).
    exists hs. split; [done|]. by apply step_heap_held. }
  split; [intros c; by apply h_lookup_or_create|]. split.
  { intros Hdone t Ht.
    assert (entered t = true) as Hen.
    { rewrite Forall_forall in Hdone. unfold entered. by rewrite (Hdone t Ht). }
    destruct (Hent t Ht Hen) as [p Hp].
    destruct (Hhost _ _ Hp) as (hs & Hhs & Hr & Hb).
    destruct (tally_quiescent_host (key t) _ Hdone) as [Hqr Hqb].
    exists p, hs. by rewrite <- Hqr, <- Hqb. }
  intros [c pc0] g1 g2 g3 Hpc. cbn in Hpc. subst pc0.
  unfold run_among, holds, step_h. cbn.
  destruct (hostMap g1 !! hostKey c); cbn; [left; by eexists|right].
  destruct (hostMap g3 !! hostKey c); cbn; by eexists.
Qed.

(** *** Totals under interleaving *)

Lemma tally_ext w1 w2 (ts : list Goroutine) :
  Forall (fun t => w1 t = w2 t) ts -> tally w1 ts = tally w2 ts.
Proof. induction 1 as [|t ts Ht _ IH]; cbn; [done|]. by rewrite Ht, IH. Qed.

(** X14.  Whatever the interleaving, once every accepted request has
    returned the two totals are the number of requests and the sum of their
    sizes, each modulo [2^64]. *)
Lemma totals_after_any_interleaving s :
  reachable s -> Forall (fun t => at_pc t = AtReturn) (gors s) ->
  totalRequests (glob s) = Go.uint64 (Z.of_nat (length (gors s)))
  /\ totalBytes (glob s) = Go.uint64 (total_size (ctx <$> gors s)).
Proof.
  intros ([Hb Hr _ _ _] & _)%reachable_inv Hdone.
  rewrite Hb, Hr, <- tally_ones, <- tally_sizes.
  split; f_equal; apply tally_ext; (eapply Forall_impl; [exact Hdone|]);
    intros t Ht; unfold added_request, added_bytes; by rewrite Ht.
Qed.

Lemma tally_11 (ts : list Goroutine) :
  Forall (fun t => fits_int (ctx t)) ts ->
  11 * tally added_request ts <= tally added_bytes ts.
Proof.
  induction 1 as [|t ts Ht _ IH]; cbn [tally]; [lia|].
  assert (11 * added_request t <= added_bytes t); [|lia].
  pose proof (reqSize_fits _ Ht) as Hsize.
  pose proof (len_nonneg (Header (ctx t))). pose proof (len_nonneg (Body (ctx t))).
  pose proof (len_nonneg (Method (ctx t))).
  pose proof (len_nonneg (RequestURI (ctx t))).
  unfold added_request, added_bytes. destruct (at_pc t); lia.
Qed.

(** X15.  [totalBytes >= 11 * totalRequests] holds in every reachable state,
    also between the atomic actions of handlers in flight: a goroutine adds
    its bytes before it adds its request. *)
Lemma total_bytes_at_least_11_interleaved s :
  reachable s -> Forall (fun t => fits_int (ctx t)) (gors s) ->
  total_size (ctx <$> gors s) <= Go.uint64_max ->
  11 * totalRequests (glob s) <= totalBytes (glob s).
Proof.
  intros ([Hb Hr _ _ _] & _)%reachable_inv Hfits Hsize.
  pose proof (tally_11 _ Hfits) as H11.
  pose proof (tally_nonneg _ _ (gors s) advancing_added_request).
  assert (tally added_bytes (gors s) <= total_size (ctx <$> gors s)).
  { rewrite <- tally_sizes. apply tally_le. intros t _.
    apply (adv_cap _ _ advancing_added_bytes). }
  rewrite Hb, Hr, !uint64_small by lia. exact H11.
Qed.

(** ** Further properties of a tick *)

Lemma interval_secs_nonneg interval : 0 <= interval_secs interval.
Proof.
  unfold interval_secs, Go.uint64_of_f64.
  destruct (Go.Seconds interval) as [| | |[] m e]; try lia.
  destruct (0 <=? e).
  - pose proof (uint64_range (Z.shiftl (Z.pos m) e)) as Hr.
    unfold Go.is_uint64 in Hr. lia.
  - apply Z.shiftr_nonneg. lia.
Qed.

Lemma sub64_diag a : Go.sub64 a a = 0.
Proof. unfold Go.sub64. rewrite Z.sub_diag. by apply uint64_small. Qed.

Lemma filter_none {A} (P : A -> Prop) `{!forall x, Decision (P x)} (l : list A) :
  Forall (fun x => ~ P x) l -> filter P l = [].
Proof.
  induction 1 as [|x l Hx _ IH]; [done|].
  rewrite filter_cons, decide_False by done. exact IH.
Qed.

Lemma candidates_nil g snaps :
  (forall k p, hostMap g !! k = Some p ->
               snaps !! k = Some (current (heap g) p)) ->
  candidates g snaps = [].
Proof.
  intros Hsnaps. unfold candidates. rewrite filter_none; [done|].
  apply Forall_forall. intros [k p] Hin%elem_of_map_to_list.
  unfold dreq_of, snapshot_of. cbn. rewrite (Hsnaps k p Hin). cbn.
  rewrite sub64_diag. lia.
Qed.

Lemma candidates_hosts_NoDup g snaps :
  NoDup (item_host <$> candidates g snaps).
Proof.
  unfold candidates. rewrite <- list_fmap_compose.
  apply (sublist_NoDup _ (map_to_list (hostMap g)).*1);
    [apply NoDup_fst_map_to_list|].
  apply fmap_sublist, sublist_filter.
Qed.

(** X1.  When a tick panics: exactly when [-top] is negative or the interval
    has no whole second; the former is a slice-bounds panic, the latter
    (with [-top] not negative) an integer division by zero. *)
Theorem tick_panics_iff (interval top sinceStart : Z) (g : Globals)
    (r : Reporter) :
  (Go.panicked (tick interval top sinceStart g r) = true
   <-> top < 0 \/ interval_secs interval = 0)
  /\ (top < 0 ->
      tick interval top sinceStart g r = Go.Panics Go.SliceBounds)
  /\ (0 <= top -> interval_secs interval = 0 ->
      tick interval top sinceStart g r = Go.Panics Go.DivideByZero).
Proof.
  split; [|split].
  - destruct (Z.lt_ge_cases top 0) as [Hneg|Htop].
    { rewrite tick_negative_top_panics by done. cbn. split; auto. }
    destruct (decide (interval_secs interval = 0)) as [Hz|Hnz].
    { rewrite tick_zero_secs_divides by done. cbn. split; auto. }
    rewrite tick_returns by done. cbn. split; [done|]. intros [?|?]; lia.
  - apply tick_negative_top_panics.
  - apply tick_zero_secs_divides.
Qed.

(** X2.  A tick on counters that have not moved since the previous tick is
    quiet: it reports rates 0, average 0.0 and no host line, and leaves the
    reporter's baseline as it was. *)
Theorem tick_again_is_quiet (interval top sinceStart sinceStart' : Z)
    (g : Globals) (r : Reporter) :
  0 <= top -> interval_secs interval <> 0 ->
  exists r' report,
    tick interval top sinceStart g r = Go.Returns (r', report)
    /\ tick interval top sinceStart' g r'
       = Go.Returns
           (r', ({| req_per_s := 0; bytes_per_s := 0; avg_req := Go.f64_zero;
                    totals_req := totalRequests g;
                    totals_bytes := totalBytes g;
                    methods_get := get (methods g);
                    methods_post := post (methods g);
                    methods_other := other (methods g);
                    uptime := Go.Truncate sinceStart' Go.Second |}, [])).
Proof.
  intros Htop Hsecs. eexists _, _. split; [by apply tick_returns|].
  rewrite tick_returns by done. cbn [prevSnapshots prevTotalReq prevTotalBytes].
  pose proof (Range_eq g (prevSnapshots r)) as [_ Hsnaps].
  set (snaps' := (Range g (prevSnapshots r)).2) in *.
  pose proof (Range_eq g snaps') as [Hitems Hsnaps'].
  assert (Hcur : forall k p, hostMap g !! k = Some p ->
                   snaps' !! k = Some (current (heap g) p)).
  { intros k p Hk. by rewrite Hsnaps, Hk. }
  assert (Hsame : (Range g snaps').2 = snaps').
  { apply map_eq. intros k. rewrite Hsnaps'.
    destruct (hostMap g !! k) as [p|] eqn:Hk; [|done]. by rewrite (Hcur k p). }
  assert (Hnone : sort_Slice less (Range g snaps').1 = []).
  { apply Permutation_nil_r. rewrite sort_Slice_perm, Hitems.
    by rewrite candidates_nil. }
  rewrite Hsame, Hnone, !sub64_diag, take_nil. cbn.
  rewrite Z.div_0_l by done. done.
Qed.

(** X3.  The host lines of a tick name pairwise distinct hosts, all of them
    in the map, number at most [-top], and each shows a positive request
    count and a rate between 0 and that count. *)
Theorem tick_host_lines_distinct_positive (interval top sinceStart : Z)
    (g : Globals) (r : Reporter) :
  0 <= top -> interval_secs interval <> 0 ->
  exists r' line ls,
    tick interval top sinceStart g r = Go.Returns (r', (line, ls))
    /\ NoDup (line_host <$> ls)
    /\ (length ls <= Z.to_nat top)%nat
    /\ Forall (fun l => is_Some (hostMap g !! line_host l)
                        /\ 0 < line_req l
                        /\ 0 <= line_req_per_s l <= line_req l) ls.
Proof.
  intros Htop Hsecs. eexists _, _, _. split; [by apply tick_returns|].
  pose proof (Range_eq g (prevSnapshots r)) as [Hitems _].
  pose proof (interval_secs_nonneg interval) as Hnn.
  set (secs := interval_secs interval) in *.
  set (sorted := sort_Slice less (Range g (prevSnapshots r)).1).
  assert (Hperm : sorted ≡ₚ candidates g (prevSnapshots r)).
  { unfold sorted. by rewrite sort_Slice_perm, Hitems. }
  split; [|split].
  - rewrite <- list_fmap_compose.
    apply (sublist_NoDup _ (item_host <$> sorted)).
    + rewrite Hperm. apply candidates_hosts_NoDup.
    + apply (fmap_sublist item_host), sublist_take.
  - rewrite length_fmap, length_take. lia.
  - apply Forall_fmap, Forall_forall. intros it Hit.
    apply subseteq_take in Hit. rewrite Hperm in Hit.
    apply elem_of_candidates in Hit as (k & p & Hk & Hpos & ->). cbn.
    split; [by eexists|]. split; [done|]. split.
    + apply Z.div_pos; lia.
    + apply Z.div_le_upper_bound; nia.
Qed.

(** X4.  After a tick the reporter holds a snapshot for every host of the
    map besides those it held before: its own map never shrinks and covers
    all hosts seen. *)
Theorem tick_snapshots_cover_hosts (interval top sinceStart : Z)
    (g : Globals) (r : Reporter) :
  0 <= top -> interval_secs interval <> 0 ->
  exists r' report,
    tick interval top sinceStart g r = Go.Returns (r', report)
    /\ dom (prevSnapshots r') = dom (prevSnapshots r) ∪ dom (hostMap g).
Proof.
  intros Htop Hsecs. eexists _, _. split; [by apply tick_returns|]. cbn.
  pose proof (Range_eq g (prevSnapshots r)) as [_ Hsnaps].
  apply set_eq. intros k.
  rewrite elem_of_union, !elem_of_dom, Hsnaps.
  destruct (hostMap g !! k) as [p|] eqn:Hk.
  - split; [intros _; right|intros _]; by eexists.
  - split; [by left|]. intros [?|[? ?]]; done.
Qed.

(** ** The statistics loop *)

Lemma ticks_returns interval top obs r :
  0 <= top -> interval_secs interval <> 0 ->
  exists r' reports,
    ticks interval top obs r = Go.Returns (r', reports)
    /\ length reports = length obs.
Proof.
  intros Htop Hsecs. revert r.
  induction obs as [|[since g] obs IH]; intros r; [by eexists _, _|].
  cbn [ticks]. rewrite tick_returns by done.
  destruct (IH {| prevSnapshots := (Range g (prevSnapshots r)).2;
                  prevTotalReq := totalRequests g;
                  prevTotalBytes := totalBytes g |})
    as (r' & reports & -> & Hlen).
  eexists _, _. split; [done|]. cbn. by rewrite Hlen.
Qed.

Lemma ticks_panics interval top obs r :
  obs <> [] -> top < 0 \/ interval_secs interval = 0 ->
  Go.panicked (ticks interval top obs r) = true.
Proof.
  intros Hobs Hbad. destruct obs as [|[since g] obs]; [done|]. cbn [ticks].
  destruct (Z.lt_ge_cases top 0) as [Hneg|Htop].
  - by rewrite tick_negative_top_panics.
  - destruct Hbad as [?|Hz]; [lia|]. by rewrite tick_zero_secs_divides.
Qed.

(** X5.  When the statistics goroutine panics: exactly when the interval is
    positive, at least one tick fires, and [-top] is negative or the interval
    has no whole second.  With [-stats] zero or negative no tick fires and
    nothing is ever reported. *)
Theorem reporter_panics_iff (interval top : Z) (obs : list (Z * Globals)) :
  (Go.panicked (reporter interval top obs) = true
   <-> 0 < interval /\ obs <> []
       /\ (top < 0 \/ interval_secs interval = 0))
  /\ (interval <= 0 ->
      reporter interval top obs = Go.Returns (initReporter, [])).
Proof.
  unfold reporter. split.
  - destruct (Z.leb_spec interval 0) as [Hle|Hlt].
    { cbn. split; [done|]. intros [? _]. lia. }
    split.
    + intros Hpanic. split; [done|].
      destruct (decide (obs = [])) as [->|Hobs]; [done|]. split; [done|].
      destruct (Z.lt_ge_cases top 0) as [?|Htop]; [by left|right].
      destruct (decide (interval_secs interval = 0)) as [|Hsecs]; [done|].
      destruct (ticks_returns interval top obs initReporter Htop Hsecs)
        as (r' & reports & Hret & _).
      by rewrite Hret in Hpanic.
    + intros (_ & Hobs & Hbad). by apply ticks_panics.
  - intros Hle. destruct (Z.leb_spec interval 0); [done|lia].
Qed.

Lemma ticks_rates interval top obs r :
  0 <= top -> 0 < interval_secs interval ->
  0 <= prevTotalReq r ->
  observed_nondecreasing (prevTotalReq r) obs ->
  exists r' reports,
    ticks interval top obs r = Go.Returns (r', reports)
    /\ Forall2 (fun rep o => totals_req rep.1 = totalRequests o.2) reports obs
    /\ prevTotalReq r <= prevTotalReq r'
    /\ interval_secs interval * sum_rates reports
       <= prevTotalReq r' - prevTotalReq r
    /\ prevTotalReq r' - prevTotalReq r
       <= interval_secs interval * sum_rates reports
          + (interval_secs interval - 1) * Z.of_nat (length obs).
Proof.
  intros Htop Hsecs. set (secs := interval_secs interval) in *. revert r.
  induction obs as [|[since g] obs IH]; intros r Hprev Hobs.
  - eexists _, _. split; [done|]. split; [constructor|]. cbn. lia.
  - destruct Hobs as [[Hle Hmax] Hrest]. cbn [ticks].
    rewrite tick_returns by (done || lia). fold secs.
    destruct (IH {| prevSnapshots := (Range g (prevSnapshots r)).2;
                    prevTotalReq := totalRequests g;
                    prevTotalBytes := totalBytes g |})
      as (r' & reports & -> & Hall & Hmono & Hlow & Hhigh);
      [cbn; lia|done|].
    cbn [prevTotalReq] in *.
    eexists _, _. split; [done|]. split; [by constructor|].
    split; [lia|].
    rewrite sub64_exact by done.
    unfold sum_rates. cbn [foldr fst req_per_s]. fold (sum_rates reports).
    pose proof (Z.div_mod (totalRequests g - prevTotalReq r) secs
                  ltac:(lia)) as Hdiv.
    pose proof (Z.mod_pos_bound (totalRequests g - prevTotalReq r) secs
                  ltac:(lia)) as Hmod.
    cbn [length]. nia.
Qed.

(** X6.  The [req/s] figures never over-report: while the observed request
    totals do not decrease, every tick's report shows the total it found,
    and the rates of all ticks, multiplied by the interval's whole seconds,
    add up to at most the last total, falling short of it by less than the
    interval's seconds per tick. *)
Theorem reporter_rates_never_overreport (interval top : Z)
    (obs : list (Z * Globals)) :
  0 < interval -> 0 <= top -> 0 < interval_secs interval ->
  observed_nondecreasing 0 obs ->
  exists r reports,
    reporter interval top obs = Go.Returns (r, reports)
    /\ Forall2 (fun rep o => totals_req rep.1 = totalRequests o.2) reports obs
    /\ interval_secs interval * sum_rates reports <= prevTotalReq r
    /\ prevTotalReq r
       <= interval_secs interval * sum_rates reports
          + (interval_secs interval - 1) * Z.of_nat (length obs).
Proof.
  intros Hint Htop Hsecs Hobs. unfold reporter.
  destruct (Z.leb_spec interval 0); [lia|].
  destruct (ticks_rates interval top obs initReporter Htop Hsecs)
    as (r & reports & Hret & Hall & _ & Hlow & Hhigh); [done|done|].
  cbn [prevTotalReq initReporter] in *.
  exists r, reports. split; [done|]. split; [done|]. lia.
Qed.

(** ** Further properties of the handler *)

Lemma remaining_0 p : remaining p = 0%nat -> p = AtReturn.
Proof. by destruct p. Qed.

Lemma step_h_ctx g t c :
  (at_pc t = AtReturn /\ ctx t = respond c)
  \/ (at_pc t <> AtReturn /\ ctx t = c) ->
  (at_pc (step_h g t).2 = AtReturn /\ ctx (step_h g t).2 = respond c)
  \/ (at_pc (step_h g t).2 <> AtReturn /\ ctx (step_h g t).2 = c).
Proof.
  step_cases g t; intros [[Hpc Hctx]|[Hpc Hctx]]; try discriminate Hpc;
    try (by destruct Hpc); subst; auto.
Qed.

Lemma run_among_spec gs t c :
  (at_pc t = AtReturn /\ ctx t = respond c)
  \/ (at_pc t <> AtReturn /\ ctx t = c) ->
  (remaining (at_pc (run_among gs t)) <= remaining (at_pc t) - length gs)%nat
  /\ ((at_pc (run_among gs t) = AtReturn /\ ctx (run_among gs t) = respond c)
      \/ (at_pc (run_among gs t) <> AtReturn /\ ctx (run_among gs t) = c)).
Proof.
  revert t. induction gs as [|g gs IH]; intros t Ht.
  - cbn. split; [lia|done].
  - cbn [run_among foldl]. fold (run_among gs (step_h g t).2).
    destruct (IH (step_h g t).2 (step_h_ctx g t c Ht)) as [Hrem Hctx].
    split; [|done]. pose proof (step_h_progress g t). cbn [length]. lia.
Qed.

(** X7.  The handler is wait-free: whatever the other goroutines do to the
    shared variables between its actions, a call returns after at most nine
    actions of its own, with the request unchanged but for the fixed
    response. *)
Theorem handler_returns_amid_interference (gs : list Globals)
    (c : RequestCtx) :
  (9 <= length gs)%nat ->
  run_among gs {| ctx := c; at_pc := AtAddBytes |} = returned c.
Proof.
  intros Hlen.
  destruct (run_among_spec gs {| ctx := c; at_pc := AtAddBytes |} c)
    as [Hrem Hctx]; [right; by split|].
  cbn [at_pc remaining] in Hrem.
  assert (Hpc : at_pc (run_among gs {| ctx := c; at_pc := AtAddBytes |})
                = AtReturn) by (apply remaining_0; lia).
  destruct Hctx as [[_ Hctx]|[Hne _]]; [|done].
  destruct (run_among gs {| ctx := c; at_pc := AtAddBytes |}) as [c' p'].
  cbn in *. by subst.
Qed.

(** X8.  Bucket keys: no request is counted under an empty key, and the
    placeholder bucket receives the requests without a host together with
    those whose host lower-cases to the placeholder text itself. *)
Theorem hostKey_never_empty_and_placeholder (c : RequestCtx) :
  hostKey c <> EmptyString
  /\ (hostKey c = "(no-host)"%string
      <-> Host c = EmptyString \/ ToLower (Host c) = "(no-host)"%string).
Proof.
  unfold hostKey.
  destruct (String.eqb_spec (ToLower (Host c)) EmptyString) as [He|Hne].
  - split; [done|]. split; [|done]. intros _. left.
    by apply ToLower_empty_iff.
  - split; [done|]. split; [by right|]. intros [Hempty|Hlow]; [|done].
    destruct Hne. by apply ToLower_empty_iff.
Qed.

Lemma byte_val_byte_of z : 0 <= z < 256 -> byte_val (byte_of z) = z.
Proof.
  intros Hz. unfold byte_val, byte_of.
  rewrite N_ascii_embedding by lia. lia.
Qed.

Lemma lower_bytes_hasUpper s : hasUpper (lower_bytes s) = false.
Proof.
  induction s as [|a s IH]; [done|]. cbn. rewrite IH, orb_false_r.
  destruct (is_upper a) eqn:Ha; [|done].
  unfold is_upper in *. apply andb_true_iff in Ha as [H1%Z.leb_le H2%Z.leb_le].
  rewrite byte_val_byte_of by lia. apply andb_false_iff. right.
  apply Z.leb_gt. lia.
Qed.

Lemma lower_bytes_isASCII s : isASCII (lower_bytes s) = isASCII s.
Proof.
  induction s as [|a s IH]; [done|]. cbn. rewrite IH. f_equal.
  destruct (is_upper a) eqn:Ha; [|done].
  unfold is_upper in *. apply andb_true_iff in Ha as [H1%Z.leb_le H2%Z.leb_le].
  rewrite byte_val_byte_of by lia.
  destruct (Z.ltb_spec (byte_val a + 32) 128), (Z.ltb_spec (byte_val a) 128);
    lia || done.
Qed.

Lemma hostKey_ascii c :
  isASCII (Host c) = true ->
  hostKey c = (if String.eqb (lower_bytes (Host c)) EmptyString
               then "(no-host)"%string else lower_bytes (Host c)).
Proof. intros Hascii. unfold hostKey. by rewrite ToLower_ascii. Qed.

(** X9.  For an ASCII host the bucket key is normalised: it is ASCII without
    upper-case letters, hosts that differ only in letter case share it, and a
    request that sends the key itself as its host lands in the same bucket. *)
Theorem hostKey_ascii_normalised (c : RequestCtx) :
  isASCII (Host c) = true ->
  isASCII (hostKey c) = true
  /\ hasUpper (hostKey c) = false
  /\ (forall c', isASCII (Host c') = true ->
        lower_bytes (Host c') = lower_bytes (Host c) -> hostKey c' = hostKey c)
  /\ (forall c', Host c' = hostKey c -> hostKey c' = hostKey c).
Proof.
  intros Hascii.
  assert (Hnorm : isASCII (hostKey c) = true /\ hasUpper (hostKey c) = false).
  { rewrite hostKey_ascii by done.
    destruct (String.eqb (lower_bytes (Host c)) EmptyString); [done|].
    by rewrite lower_bytes_isASCII, lower_bytes_hasUpper. }
  destruct Hnorm as [Ha Hu]. split; [done|]. split; [done|]. split.
  - intros c' Hascii' Hlow. rewrite !hostKey_ascii by done. by rewrite Hlow.
  - intros c' Hhost.
    assert (Hlow : ToLower (Host c') = hostKey c).
    { unfold ToLower. by rewrite Hhost, Ha, Hu. }
    unfold hostKey at 1. rewrite Hlow.
    destruct (String.eqb_spec (hostKey c) EmptyString) as [He|]; [|done].
    revert He. rewrite hostKey_ascii by done.
    destruct (String.eqb_spec (lower_bytes (Host c)) EmptyString);
      [discriminate|done].
Qed.

(** ** Further invariants of the interleaved execution *)

Lemma step_heap_new g t n hs :
  heap (step_h g t).1 !! n = Some hs ->
  (n < length (heap g))%nat \/ hs = zeroHostStats.
Proof.
  step_cases g t; intros Hn;
    try (left; by eapply lookup_lt_Some);
    try (left; apply lookup_lt_Some in Hn; by rewrite length_alter in Hn).
  apply lookup_app_Some in Hn as [Hn|[_ Hn]]; [left; by eapply lookup_lt_Some|].
  right. destruct (n - length (heap g))%nat; [by injection Hn|done].
Qed.

(** X10.  A [hostStats] object that is not stored in the map - the duplicate
    a goroutine allocated and then dropped, or one not yet stored - holds
    zero in both counters in every reachable state: no increment ever goes
    to it. *)
Theorem unstored_objects_stay_zero (s : System) (n : nat) (hs : hostStats) :
  reachable s ->
  heap (glob s) !! n = Some hs ->
  (forall k, hostMap (glob s) !! k <> Some n) ->
  hs = zeroHostStats.
Proof.
  intros Hreach. revert n hs. revert s Hreach.
  apply (rtc_ind_r (R := sys_step)
           (fun s => forall n hs, heap (glob s) !! n = Some hs ->
                     (forall k, hostMap (glob s) !! k <> Some n) ->
                     hs = zeroHostStats)).
  - intros n hs Hn. cbn in Hn. by rewrite lookup_nil in Hn.
  - intros s0 s1 Hs0 Hstep IH n hs Hn Hfree.
    destruct Hstep as [s c|s i t Hi]; [by eapply IH|].
    cbn in Hn, Hfree.
    destruct (reachable_inv s Hs0) as (_ & [_ Hholds _ _ _] & _).
    assert (Hfree0 : forall k, hostMap (glob s) !! k <> Some n).
    { intros k Hk. by apply (Hfree k), step_hostMap_stable. }
    destruct (step_heap_new _ _ _ _ Hn) as [Hlt|Hz]; [|exact Hz].
    rewrite step_heap_lookup in Hn; [by eapply IH|done|].
    intros Hh. apply (Hfree0 (key t)), Hholds; [|done].
    by eapply list_elem_of_lookup_2.
Qed.

Lemma step_alloc g t :
  Z.of_nat (length (heap (step_h g t).1)) - Z.of_nat (length (heap g))
  <= past_lookup (step_h g t).2 - past_lookup t.
Proof.
  unfold past_lookup. step_cases g t;
    rewrite ?length_app, ?length_alter; cbn; lia.
Qed.

Lemma step_store g t :
  Z.of_nat (size (hostMap (step_h g t).1)) - Z.of_nat (size (hostMap g))
  <= past_store (step_h g t).2 - past_store t.
Proof.
  unfold past_store, entered. step_cases g t; try lia.
  rewrite map_size_insert_None by done. lia.
Qed.

(** X11.  Memory grows by at most one map entry and one [hostStats]
    allocation per accepted request: in every reachable state neither the
    number of hosts in the map nor the number of allocated objects exceeds
    the number of requests accepted so far. *)
Theorem entries_and_allocations_bounded (s : System) :
  reachable s ->
  (size (hostMap (glob s)) <= length (gors s))%nat
  /\ (length (heap (glob s)) <= length (gors s))%nat.
Proof.
  intros Hreach.
  assert (Hinv : Z.of_nat (size (hostMap (glob s))) <= tally past_store (gors s)
                 /\ Z.of_nat (length (heap (glob s)))
                    <= tally past_lookup (gors s)).
  { revert s Hreach.
    apply (rtc_ind_r (R := sys_step)
             (fun s => Z.of_nat (size (hostMap (glob s)))
                       <= tally past_store (gors s)
                       /\ Z.of_nat (length (heap (glob s)))
                          <= tally past_lookup (gors s))).
    - cbn. rewrite map_size_empty. lia.
    - intros s0 s1 _ [s c|s i t Hi] [IHs IHa]; cbn.
      + rewrite !tally_app. cbn. lia.
      + rewrite !(tally_insert _ _ _ _ _ Hi).
        pose proof (step_alloc (glob s) t). pose proof (step_store (glob s) t).
        lia. }
  destruct Hinv as [Hs Ha].
  assert (tally past_store (gors s) <= tally (fun _ => 1) (gors s)).
  { apply tally_le. intros t _. unfold past_store. destruct (entered t); lia. }
  assert (tally past_lookup (gors s) <= tally (fun _ => 1) (gors s)).
  { apply tally_le. intros t _. unfold past_lookup. destruct (at_pc t); lia. }
  rewrite tally_ones in *. lia.
Qed.

Lemma entry_has_origin s k p :
  reachable s -> hostMap (glob s) !! k = Some p ->
  exists t, t ∈ gors s /\ key t = k.
Proof.
  intros Hreach. revert k p. revert s Hreach.
  apply (rtc_ind_r (R := sys_step)
           (fun s => forall k p, hostMap (glob s) !! k = Some p ->
                     exists t, t ∈ gors s /\ key t = k)).
  - intros k p Hk. cbn in Hk. by rewrite lookup_empty in Hk.
  - intros s0 s1 _ [s c|s i t Hi] IH k p Hk; cbn in *.
    + destruct (IH k p Hk) as (t & Ht & Hkey). exists t.
      split; [|done]. apply elem_of_app. by left.
    + assert (Hnew : (step_h (glob s) t).2
                     ∈ <[i := (step_h (glob s) t).2]> (gors s)).
      { eapply list_elem_of_lookup_2. apply list_lookup_insert_eq.
        by eapply lookup_lt_Some. }
      apply step_hostMap_new in Hk as [Hk|(-> & _ & _)].
      * destruct (IH k p Hk) as (t0 & [j Hj]%list_elem_of_lookup & Hkey).
        destruct (decide (j = i)) as [->|Hne].
        -- exists (step_h (glob s) t).2. split; [done|].
           rewrite step_h_key. congruence.
        -- exists t0. split; [|done]. eapply list_elem_of_lookup_2.
           by rewrite list_lookup_insert_ne.
      * exists (step_h (glob s) t).2. split; [done|apply step_h_key].
Qed.

Lemma tally_returned_requests k cs :
  tally (added_host_request k) (returned <$> cs) = requests_for k cs.
Proof.
  unfold requests_for. induction cs as [|c cs IH]; [done|].
  rewrite fmap_cons, filter_cons. cbn [tally]. rewrite IH.
  unfold added_host_request, key, returned. cbn [ctx at_pc].
  rewrite hostKey_respond. case_decide; cbn [length]; lia.
Qed.

Lemma tally_returned_bytes k cs :
  tally (added_host_bytes k) (returned <$> cs) = bytes_for k cs.
Proof.
  unfold bytes_for. induction cs as [|c cs IH]; [done|].
  rewrite fmap_cons, filter_cons. cbn [tally]. rewrite IH.
  unfold added_host_bytes, key, returned. cbn [ctx at_pc].
  rewrite hostKey_respond, reqSize_respond.
  case_decide; rewrite ?total_size_cons; lia.
Qed.

(** X12.  Per-host accounting: after a sequence of requests served from the
    initial state, the map has an entry exactly for the bucket keys of those
    requests, and the entry of a key holds the number of requests of that
    bucket and the sum of their size estimates, each modulo [2^64]. *)
Theorem serve_host_accounting (cs : list RequestCtx) (k : string) :
  (is_Some (hostMap (serve initGlobals cs) !! k)
   <-> exists c, c ∈ cs /\ hostKey c = k)
  /\ (forall p, hostMap (serve initGlobals cs) !! k = Some p ->
        exists hs,
          heap (serve initGlobals cs) !! p = Some hs
          /\ requests hs = Go.uint64 (requests_for k cs)
          /\ bytes hs = Go.uint64 (bytes_for k cs)).
Proof.
  pose proof (serve_reachable cs) as Hreach.
  destruct (reachable_inv _ Hreach) as (_ & [Hent _ _ _ _] & [Hhost]).
  cbn [glob gors] in *. split; [split|].
  - intros [p Hp].
    destruct (entry_has_origin _ k p Hreach Hp) as (t & Ht & Hkey).
    cbn [gors] in Ht. apply list_elem_of_fmap in Ht as (c & -> & Hc).
    exists c. split; [done|]. revert Hkey. unfold key, returned. cbn [ctx].
    by rewrite hostKey_respond.
  - intros (c & Hc & <-).
    assert (Hkey : key (returned c) = hostKey c).
    { unfold key, returned. cbn [ctx]. apply hostKey_respond. }
    rewrite <- Hkey. apply Hent; [|done].
    apply list_elem_of_fmap. by exists c.
  - intros p Hp. destruct (Hhost k p Hp) as (hs & Hhs & Hr & Hb).
    exists hs. split; [done|].
    by rewrite Hr, Hb, tally_returned_requests, tally_returned_bytes.
Qed.

Lemma tally_methods (ts : list Goroutine) :
  tally (added_method GET) ts + tally (added_method POST) ts
    + tally (added_method OTHER) ts <= tally added_request ts
  /\ (Forall (fun t => at_pc t = AtReturn) ts ->
      tally (added_method GET) ts + tally (added_method POST) ts
        + tally (added_method OTHER) ts = tally added_request ts).
Proof.
  induction ts as [|t ts [IHle IHeq]]; [done|]. cbn [tally].
  assert (Hone : added_method GET t + added_method POST t
                   + added_method OTHER t <= added_request t
                 /\ (at_pc t = AtReturn ->
                     added_method GET t + added_method POST t
                       + added_method OTHER t = added_request t)).
  { unfold added_method, added_request.
    destruct (method_case (Method (ctx t))); repeat case_decide;
      try congruence; destruct (at_pc t); split; (lia || discriminate). }
  destruct Hone as [Hle Heq]. split; [lia|].
  intros [Ht Hts]%Forall_cons. specialize (Heq Ht). specialize (IHeq Hts). lia.
Qed.

(** X13.  The three method counters partition the request total: while the
    number of accepted requests fits [uint64], [get + post + other] never
    exceeds [totalRequests] in a reachable state, and equals it once every
    accepted request has returned. *)
Theorem method_counters_partition_requests (s : System) :
  reachable s -> Z.of_nat (length (gors s)) <= Go.uint64_max ->
  get (methods (glob s)) + post (methods (glob s)) + other (methods (glob s))
    <= totalRequests (glob s)
  /\ (Forall (fun t => at_pc t = AtReturn) (gors s) ->
      get (methods (glob s)) + post (methods (glob s))
        + other (methods (glob s)) = totalRequests (glob s)).
Proof.
  intros ([_ Hr Hg Hp Ho] & _)%reachable_inv Hlen.
  destruct (tally_methods (gors s)) as [Hle Heq].
  pose proof (tally_nonneg _ _ (gors s) (advancing_added_method GET)).
  pose proof (tally_nonneg _ _ (gors s) (advancing_added_method POST)).
  pose proof (tally_nonneg _ _ (gors s) (advancing_added_method OTHER)).
  assert (tally added_request (gors s) <= Z.of_nat (length (gors s))).
  { rewrite <- tally_ones. apply tally_le. intros t _.
    apply (adv_cap _ _ advancing_added_request). }
  rewrite Hr, Hg, Hp, Ho, !uint64_small by lia. split; [done|].
  exact Heq.
Qed.

(** ** Handler and reporter together *)

Lemma sub64_add x d : Go.sub64 (Go.AddUint64 x d) x = Go.uint64 d.
Proof.
  unfold Go.sub64, Go.AddUint64, Go.uint64.
  rewrite Zminus_mod_idemp_l. f_equal. lia.
Qed.





(** X17.  The shutdown line: after any sequence of served requests whose
    number and total size fit [uint64], the final totals are that number and
    that size, the average is their [float64] quotient, and with no request
    served it is 0.0 - the division is skipped. *)
Theorem final_totals_after_serve (sinceStart : Z) (cs : list RequestCtx) :
  Z.of_nat (length cs) <= Go.uint64_max -> total_size cs <= Go.uint64_max ->
  final_totals sinceStart (serve initGlobals cs)
  = (Z.of_nat (length cs), total_size cs,
     match cs with
     | [] => Go.f64_zero
     | _ :: _ => Go.f64_div (Go.f64_of_Z (total_size cs))
                            (Go.f64_of_Z (Z.of_nat (length cs)))
     end,
     Go.Truncate sinceStart Go.Second).
Proof.
  intros Hlen Hsize. unfold final_totals.
  destruct (serve_init_totals cs) as [Hr Hb].
  pose proof (total_size_nonneg cs).
  rewrite Hr, Hb, !uint64_small by lia.
  destruct cs as [|c cs]; [done|].
  destruct (Z.ltb_spec 0 (Z.of_nat (length (c :: cs)))) as [_|Hle]; [done|].
  cbn [length] in Hle. lia.
Qed.

Lemma filter_singleton {A} (P : A -> Prop) `{!forall x, Decision (P x)}
    (l : list A) (x : A) :
  NoDup l -> x ∈ l -> (forall y, y ∈ l -> (P y <-> y = x)) ->
  filter P l = [x].
Proof.
  induction l as [|a l IH]; intros Hnd Hx HP; [by apply elem_of_nil in Hx|].
  apply NoDup_cons in Hnd as [Ha Hnd]. rewrite filter_cons.
  destruct (decide (P a)) as [HPa|HPa].
  - apply HP in HPa as ->; [|by left]. f_equal. apply filter_none.
    apply Forall_forall. intros y Hy HPy.
    apply HP in HPy as ->; [done|by right].
  - apply elem_of_cons in Hx as [->|Hx].
    { destruct HPa. apply HP; [by left|done]. }
    apply IH; [done|done|]. intros y Hy. apply HP. by right.
Qed.

(** The entry of the request's bucket after a call of the handler, and the
    entries the call leaves alone. *)
Lemma h_entry g c :
  (forall k p, hostMap g !! k = Some p -> (p < length (heap g))%nat) ->
  (forall k1 k2 p,
     hostMap g !! k1 = Some p -> hostMap g !! k2 = Some p -> k1 = k2) ->
  let old := match hostMap g !! hostKey c with
             | Some p => deref (heap g) p
             | None => zeroHostStats
             end in
  exists pk,
    hostMap (h g c).1 !! hostKey c = Some pk
    /\ deref (heap (h g c).1) pk
       = {| requests := Go.AddUint64 (requests old) 1;
            bytes := Go.AddUint64 (bytes old) (reqSize c) |}
    /\ forall k' p', k' <> hostKey c -> hostMap (h g c).1 !! k' = Some p' ->
         hostMap g !! k' = Some p'
         /\ deref (heap (h g c).1) p' = deref (heap g) p'.
Proof.
  intros Halloc Hinj. rewrite h_eq. cbn [fst hostMap heap].
  destruct (hostMap g !! hostKey c) as [p|] eqn:Hk; cbn zeta.
  - exists p. split; [done|].
    destruct (lookup_lt_is_Some_2 (heap g) p (Halloc _ _ Hk)) as [hs Hhs].
    split.
    + unfold deref. by rewrite !list_lookup_alter_eq, Hhs.
    + intros k' p' Hne Hk'. split; [done|].
      assert (p <> p') by (intros ->; by destruct Hne; eapply Hinj).
      unfold deref. by rewrite !list_lookup_alter_ne.
  - exists (length (heap g)). split; [by rewrite lookup_insert_eq|]. split.
    + unfold deref.
      by rewrite !list_lookup_alter_eq, lookup_app_r, Nat.sub_diag.
    + intros k' p' Hne Hk'. rewrite lookup_insert_ne in Hk' by done.
      split; [done|]. pose proof (Halloc _ _ Hk').
      unfold deref. rewrite !list_lookup_alter_ne by lia.
      by rewrite lookup_app_l.
Qed.




(** X18.  One handler call between two ticks.  Let a tick fire in a
    reachable state - other handlers may be in flight, stopped between any
    two of their actions.  If then one request is accepted and its handler
    runs from entry to return while no other goroutine moves, the next tick
    (with [-top] at least 1) prints exactly one host line, for the bucket of
    that request, showing 1 request and the request's size estimate -
    whether the host is new or known, and also if its counters wrapped.
    (What handlers in flight add between the ticks is added to the lines:
    see X19.) *)
Theorem request_shows_in_next_tick (interval top since1 since2 : Z)
    (s : System) (c : RequestCtx) (r : Reporter) :
  reachable s ->
  1 <= top -> interval_secs interval <> 0 ->
  dom (prevSnapshots r) ⊆ dom (hostMap (glob s)) ->
  rtc sys_step s {| glob := (h (glob s) c).1; gors := gors s ++ [returned c] |}
  /\ exists r1 rep1 r2 line,
       tick interval top since1 (glob s) r = Go.Returns (r1, rep1)
       /\ tick interval top since2 (h (glob s) c).1 r1
          = Go.Returns
              (r2, (line,
                    [ {| line_host := hostKey c;
                         line_req_per_s := 1 / interval_secs interval;
                         line_avg := Go.f64_div (Go.f64_of_Z (reqSize c))
                                                (Go.f64_of_Z 1);
                         line_req := 1;
                         line_bytes := reqSize c |} ])).
Proof.
  intros Hreach Htop Hsecs Hdom.
  split; [apply serve_one_steps|].
  destruct (reachable_inv _ Hreach) as (_ & [_ _ Halloc Hinj _] & _).
  set (g := glob s) in *.
  destruct (h_entry g c Halloc Hinj) as (pk & Hpk & Hcur & Hothers).
  cbn zeta in Hcur.
  eexists _, _, _, _. split; [apply tick_returns; [lia|done]|].
  rewrite tick_returns by (lia || done).
  cbn [prevSnapshots prevTotalReq prevTotalBytes].
  pose proof (Range_eq g (prevSnapshots r)) as [_ Hsnaps].
  set (snaps := (Range g (prevSnapshots r)).2) in *.
  pose proof (Range_eq (h g c).1 snaps) as [-> _].
  set (g' := (h g c).1) in *.
  (* the snapshot of the request's bucket is its entry before the call *)
  assert (Hold : snapshot_of snaps (hostKey c)
                 = match hostMap g !! hostKey c with
                   | Some p => current (heap g) p
                   | None => zeroHostStats
                   end).
  { unfold snapshot_of. rewrite Hsnaps.
    destruct (hostMap g !! hostKey c) eqn:Hk; [done|].
    assert (prevSnapshots r !! hostKey c = None) as ->; [|done].
    apply not_elem_of_dom. intros Hin%Hdom. by apply not_elem_of_dom in Hk. }
  assert (Hitem : item_of (heap g') snaps (hostKey c, pk)
                  = {| item_host := hostKey c; item_req := 1;
                       item_bytes := reqSize c;
                       item_avg := Go.f64_div (Go.f64_of_Z (reqSize c))
                                              (Go.f64_of_Z 1) |}).
  { unfold item_of, dreq_of. cbn [fst snd]. rewrite Hcur, Hold.
    cbn [requests bytes].
    assert (Hreq : forall x, Go.sub64 (Go.AddUint64 x 1) x = 1)
      by (intros x; rewrite sub64_add; by apply uint64_small).
    assert (Hbytes : forall x, Go.sub64 (Go.AddUint64 x (reqSize c)) x
                               = reqSize c).
    { intros x. rewrite sub64_add. apply uint64_small, reqSize_range. }
    destruct (hostMap g !! hostKey c); cbn [current requests bytes];
      by rewrite Hreq, Hbytes. }
  assert (Hcands : candidates g' snaps
                   = [item_of (heap g') snaps (hostKey c, pk)]).
  { unfold candidates.
    rewrite (filter_singleton _ _ (hostKey c, pk)); [done| | |].
    - apply NoDup_map_to_list.
    - by apply elem_of_map_to_list.
    - intros [k' p'] Hin%elem_of_map_to_list.
      destruct (decide (k' = hostKey c)) as [->|Hne].
      + assert (p' = pk) as -> by congruence.
        split; [done|]. intros _.
        change (0 < item_req (item_of (heap g') snaps (hostKey c, pk))).
        rewrite Hitem. cbn. lia.
      + split; [|intros [= -> _]; done]. intros Hpos. exfalso.
        destruct (Hothers k' p' Hne Hin) as [Hk' Hderef].
        revert Hpos. unfold dreq_of, snapshot_of. cbn [fst snd].
        rewrite Hsnaps, Hk', Hderef. cbn. rewrite sub64_diag. lia. }
  rewrite Hcands, Hitem.
  match goal with
  | |- context [sort_Slice less [?it]] =>
      assert (Hsorted : sort_Slice less [it] = [it])
        by (apply Permutation_singleton_r, sort_Slice_perm)
  end.
  rewrite Hsorted, take_ge by (cbn [length]; lia).
  rewrite list_fmap_singleton. unfold line_of.
  cbn [item_host item_req item_bytes item_avg]. reflexivity.
Qed.

End Server.

(** ** Instances and worked examples *)

Lemma id_lower_nonempty s : s <> EmptyString -> id_lower s <> EmptyString.
Proof. intros Hs. exact Hs. Qed.

Lemma msort_perm f l : msort f l ≡ₚ l.
Proof. unfold msort. apply merge_sort_Permutation. Qed.

Lemma msort_sorted l :
  StronglySorted (fun a b => less b a = false) (msort less l).
Proof.
  unfold msort. apply StronglySorted_merge_sort.
  - intros a b c. unfold less. rewrite !Z.ltb_ge. lia.
  - intros a b. unfold less. rewrite !Z.ltb_ge. lia.
Qed.

Example classify_post u :
  hostKey u ex_post = "example.com"%string
  /\ method_case (Method ex_post) = POST
  /\ reqSize ex_post = 185.
Proof. repeat split; vm_compute; reflexivity. Qed.

Example classify_no_host u :
  hostKey u ex_get = "(no-host)"%string
  /\ method_case (Method ex_get) = GET
  /\ reqSize ex_get = 25.
Proof. repeat split; vm_compute; reflexivity. Qed.

Example interval_secs_examples :
  interval_secs (2 * Go.Second) = 2
  /\ interval_secs Go.Second = 1
  /\ interval_secs (1500 * Go.Millisecond) = 1
  /\ interval_secs (999999999 * Go.Nanosecond) = 0
  /\ interval_secs Go.Nanosecond = 0.
Proof. repeat split; vm_compute; reflexivity. Qed.

(** A counter at its largest value wraps to zero on the next increment. *)
Example AddUint64_wraps : Go.AddUint64 Go.uint64_max 1 = 0.
Proof. vm_compute. reflexivity. Qed.

(** The delta example: 25 req/s, 1500 bytes/s, average 60.0. *)
Example tick_delta_example :
  tick msort (2 * Go.Second) 5 (60 * Go.Second) globals_150 reporter_100
  = Go.Returns
      ({| prevSnapshots := ∅; prevTotalReq := 150; prevTotalBytes := 8000 |},
       ({| req_per_s := 25; bytes_per_s := 1500; avg_req := Go.f64_of_Z 60;
           totals_req := 150; totals_bytes := 8000;
           methods_get := 150; methods_post := 0; methods_other := 0;
           uptime := 60 * Go.Second |}, [])).
Proof. vm_compute. reflexivity. Qed.

(** Seven hosts with positive deltas and [-top=5]: five lines, for the five
    hosts with the most requests. *)
Example tick_top5_example :
  match tick msort (2 * Go.Second) 5 (60 * Go.Second)
          (serve id_lower initGlobals seven_hosts) initReporter with
  | Go.Returns (_, (_, ls)) =>
      (fun l => (line_host l, line_req l)) <$> ls
      = [("g.test", 7); ("f.test", 6); ("e.test", 5); ("d.test", 4);
         ("c.test", 3)]%string
  | Go.Panics _ => False
  end.
Proof. vm_compute. reflexivity. Qed.

(** The race of two first requests for one host: one entry is stored, both
    goroutines hold it, the duplicate stays untouched, and the stored entry
    ends with both requests counted. *)
Example race_example :
  let s := schedule id_lower race initSystem in
  let s' := schedule id_lower race_finished initSystem in
  map_to_list (hostMap (glob s)) = [("example.com"%string, 1%nat)]
  /\ holds <$> gors s = [Some 1%nat; Some 1%nat]
  /\ heap (glob s) = [zeroHostStats; zeroHostStats]
  /\ heap (glob s') = [zeroHostStats; {| requests := 2; bytes := 370 |}]
  /\ at_pc <$> gors s' = [AtReturn; AtReturn].
Proof. repeat split; vm_compute; reflexivity. Qed.

(** ** Witnesses *)

Lemma classify_hostKey_sizeEstimate_witness :
  fits_int ex_post
  /\ hostKey id_lower ex_post = "example.com"%string
  /\ reqSize ex_post = 185.
Proof.
  assert (Hfit : fits_int ex_post) by (vm_compute; reflexivity).
  split; [exact Hfit|].
  destruct (classify_hostKey_sizeEstimate id_lower id_lower_nonempty
              ex_post Hfit) as [Hk Hs].
  split; [rewrite Hk|rewrite Hs]; reflexivity.
Defined.

Lemma tick_deltas_and_rates_witness :
  exists r' line ls,
    tick msort (2 * Go.Second) 5 (60 * Go.Second) globals_150 reporter_100
      = Go.Returns (r', (line, ls))
    /\ req_per_s line = 25
    /\ bytes_per_s line = 1500
    /\ avg_req line = Go.f64_of_Z 60.
Proof.
  destruct (tick_deltas_and_rates msort (2 * Go.Second) 5 (60 * Go.Second) 2
              globals_150 reporter_100)
    as (r' & line & ls & Htick & Hr & Hb & Ha & _);
    try (vm_compute; reflexivity);
    try (vm_compute; split; intros H; discriminate H);
    try (vm_compute; intros H; discriminate H).
  exists r', line, ls. split; [exact Htick|].
  rewrite Hr, Hb, Ha. repeat split; vm_compute; reflexivity.
Defined.

Lemma tick_top_hosts_witness :
  exists r' line kept rest,
    tick msort (2 * Go.Second) 5 (60 * Go.Second)
         (serve id_lower initGlobals seven_hosts) initReporter
      = Go.Returns (r', (line, line_of 2 <$> kept))
    /\ length kept = 5%nat
    /\ length rest = 2%nat
    /\ (forall x y, x ∈ kept -> y ∈ rest -> item_req y <= item_req x).
Proof.
  destruct (tick_top_hosts msort msort_perm msort_sorted (2 * Go.Second) 5
              (60 * Go.Second) (serve id_lower initGlobals seven_hosts)
              initReporter)
    as (r' & line & kept & rest & Htick & Hperm & _ & Hlen & _ & Hcut & _);
    try (vm_compute; intros H; discriminate H).
  exists r', line, kept, rest. split; [exact Htick|].
  assert (Hlen' : length kept = 5%nat) by (rewrite Hlen; vm_compute; reflexivity).
  split; [exact Hlen'|]. split; [|exact Hcut].
  apply Permutation_length in Hperm. rewrite length_app, Hlen' in Hperm.
  assert (Hall : length (candidates (serve id_lower initGlobals seven_hosts)
                           (prevSnapshots initReporter)) = 7%nat)
    by (vm_compute; reflexivity).
  rewrite Hall in Hperm. injection Hperm as Hrest. exact Hrest.
Defined.

Lemma totals_are_commutative_sums_witness :
  totalRequests (serve id_lower initGlobals [ex_post; ex_get]) = 2
  /\ totalBytes (serve id_lower initGlobals [ex_post; ex_get]) = 210
  /\ totalBytes (serve id_lower initGlobals [ex_get; ex_post])
     = totalBytes (serve id_lower initGlobals [ex_post; ex_get]).
Proof.
  destruct (totals_are_commutative_sums id_lower [ex_post; ex_get])
    as (Hr & Hb & Hperm);
    try (vm_compute; intros H; discriminate H).
  split; [rewrite Hr; reflexivity|]. split; [rewrite Hb; reflexivity|].
  apply (Hperm [ex_get; ex_post]). apply perm_swap.
Defined.

Lemma counters_never_decrease_witness :
  counters_le (glob (schedule id_lower race initSystem))
              (glob (schedule id_lower race_finished initSystem)).
Proof.
  apply (counters_never_decrease id_lower).
  - apply schedule_reachable.
  - unfold race_finished. rewrite schedule_app. apply schedule_steps.
  - vm_compute. intros H; discriminate H.
  - vm_compute. intros H; discriminate H.
Defined.

Lemma total_bytes_at_least_11_per_request_witness :
  11 * totalRequests (serve id_lower initGlobals [ex_post; ex_get])
  <= totalBytes (serve id_lower initGlobals [ex_post; ex_get]).
Proof.
  apply total_bytes_at_least_11_per_request.
  - repeat constructor; vm_compute; reflexivity.
  - vm_compute. intros H; discriminate H.
Defined.

Lemma top_5_nonneg : 0 <= 5.
Proof. lia. Qed.

Lemma two_seconds : interval_secs (2 * Go.Second) <> 0.
Proof. vm_compute. intros H; discriminate H. Qed.

Lemma tick_again_is_quiet_witness :
  exists r' report line,
    tick msort (2 * Go.Second) 5 (60 * Go.Second)
         (serve id_lower initGlobals seven_hosts) initReporter
      = Go.Returns (r', report)
    /\ tick msort (2 * Go.Second) 5 (62 * Go.Second)
            (serve id_lower initGlobals seven_hosts) r'
       = Go.Returns (r', (line, []))
    /\ req_per_s line = 0.
Proof.
  destruct (tick_again_is_quiet msort msort_perm (2 * Go.Second) 5
              (60 * Go.Second) (62 * Go.Second)
              (serve id_lower initGlobals seven_hosts) initReporter
              top_5_nonneg two_seconds)
    as (r' & report & Hfirst & Hsecond).
  eexists r', report, _. split; [exact Hfirst|]. split; [exact Hsecond|].
  reflexivity.
Defined.

Lemma tick_host_lines_distinct_positive_witness :
  exists r' line ls,
    tick msort (2 * Go.Second) 5 (60 * Go.Second)
         (serve id_lower initGlobals seven_hosts) initReporter
      = Go.Returns (r', (line, ls))
    /\ NoDup (line_host <$> ls)
    /\ (length ls <= 5)%nat.
Proof.
  destruct (tick_host_lines_distinct_positive msort msort_perm
              (2 * Go.Second) 5 (60 * Go.Second)
              (serve id_lower initGlobals seven_hosts) initReporter
              top_5_nonneg two_seconds)
    as (r' & line & ls & Htick & Hnd & Hlen & _).
  exists r', line, ls. split; [exact Htick|]. split; [exact Hnd|exact Hlen].
Defined.

Lemma tick_snapshots_cover_hosts_witness :
  exists r' report,
    tick msort (2 * Go.Second) 5 (60 * Go.Second)
         (serve id_lower initGlobals seven_hosts) initReporter
      = Go.Returns (r', report)
    /\ dom (prevSnapshots r')
       = dom (prevSnapshots initReporter)
         ∪ dom (hostMap (serve id_lower initGlobals seven_hosts)).
Proof.
  apply (tick_snapshots_cover_hosts msort);
    [exact top_5_nonneg|exact two_seconds].
Defined.

Lemma reporter_rates_never_overreport_witness :
  exists r reports,
    reporter msort (2 * Go.Second) 5 two_ticks = Go.Returns (r, reports)
    /\ 2 * sum_rates reports <= prevTotalReq r
    /\ prevTotalReq r <= 2 * sum_rates reports + 2.
Proof.
  assert (Hobs : observed_nondecreasing 0 two_ticks).
  { cbn. unfold Go.uint64_max. lia. }
  assert (Hsecs : 0 < interval_secs (2 * Go.Second))
    by (vm_compute; reflexivity).
  assert (Hint : 0 < 2 * Go.Second) by (vm_compute; reflexivity).
  destruct (reporter_rates_never_overreport msort (2 * Go.Second) 5 two_ticks
              Hint top_5_nonneg Hsecs Hobs)
    as (r & reports & Hret & _ & Hlow & Hhigh).
  exists r, reports. split; [exact Hret|].
  change (interval_secs (2 * Go.Second)) with 2 in Hlow, Hhigh.
  cbn [length two_ticks] in Hhigh. lia.
Defined.

Lemma handler_returns_amid_interference_witness :
  run_among id_lower
    (replicate 4 globals_100 ++ replicate 5 globals_150)
    {| ctx := ex_post; at_pc := AtAddBytes |}
  = returned ex_post.
Proof.
  apply handler_returns_amid_interference. cbn. lia.
Defined.

Lemma hostKey_never_empty_and_placeholder_witness :
  hostKey id_lower ex_placeholder = "(no-host)"%string
  /\ hostKey id_lower ex_get = "(no-host)"%string.
Proof.
  split.
  - apply (hostKey_never_empty_and_placeholder id_lower id_lower_nonempty).
    right. vm_compute. reflexivity.
  - apply (hostKey_never_empty_and_placeholder id_lower id_lower_nonempty).
    left. reflexivity.
Defined.

Lemma hostKey_ascii_normalised_witness :
  isASCII (hostKey id_lower ex_post) = true
  /\ hasUpper (hostKey id_lower ex_post) = false.
Proof.
  destruct (hostKey_ascii_normalised id_lower ex_post) as (Ha & Hu & _);
    [vm_compute; reflexivity|].
  split; [exact Ha|exact Hu].
Defined.

Lemma race_hostMap :
  hostMap (glob (schedule id_lower race_finished initSystem))
  = {[ "example.com"%string := 1%nat ]}.
Proof. vm_compute. reflexivity. Qed.

Lemma unstored_objects_stay_zero_witness :
  exists hs,
    heap (glob (schedule id_lower race_finished initSystem)) !! 0%nat = Some hs
    /\ hs = zeroHostStats.
Proof.
  assert (Hlookup :
    exists hs, heap (glob (schedule id_lower race_finished initSystem)) !! 0%nat
               = Some hs) by (eexists; vm_compute; reflexivity).
  destruct Hlookup as [hs Hhs]. exists hs. split; [exact Hhs|].
  apply (unstored_objects_stay_zero id_lower
           (schedule id_lower race_finished initSystem) 0 hs).
  - apply schedule_reachable.
  - exact Hhs.
  - intros k. rewrite race_hostMap. intros Hk.
    apply lookup_singleton_Some in Hk as [_ Hk]. discriminate Hk.
Defined.

Lemma entries_and_allocations_bounded_witness :
  (size (hostMap (glob (schedule id_lower race initSystem)))
   <= length (gors (schedule id_lower race initSystem)))%nat
  /\ (length (heap (glob (schedule id_lower race initSystem)))
      <= length (gors (schedule id_lower race initSystem)))%nat.
Proof.
  apply (entries_and_allocations_bounded id_lower). apply schedule_reachable.
Defined.

Lemma race_gors :
  gors (schedule id_lower race initSystem)
  = [ {| ctx := ex_post; at_pc := AtHostRequests 1 |};
      {| ctx := ex_post; at_pc := AtHostRequests 1 |} ].
Proof. vm_compute. reflexivity. Qed.

Lemma race_finished_returned :
  Forall (fun t => at_pc t = AtReturn)
    (gors (schedule id_lower race_finished initSystem)).
Proof. vm_compute. repeat constructor. Qed.

Lemma race_finished_gors :
  gors (schedule id_lower race_finished initSystem)
  = [returned ex_post; returned ex_post].
Proof. vm_compute. reflexivity. Qed.

Lemma load_or_create_single_instance_witness :
  hostMap (glob (schedule id_lower race initSystem)) !! "example.com"%string
  = Some 1%nat
  /\ exists p hs,
       hostMap (glob (schedule id_lower race_finished initSystem))
         !! "example.com"%string = Some p
       /\ heap (glob (schedule id_lower race_finished initSystem)) !! p
          = Some hs
       /\ requests hs = 2
       /\ bytes hs = 370.
Proof.
  split.
  - destruct (load_or_create_single_instance id_lower
                (schedule id_lower race initSystem)
                (schedule_reachable id_lower race)) as (Hholds & _).
    apply (Hholds {| ctx := ex_post; at_pc := AtHostRequests 1 |} 1%nat);
      [|reflexivity].
    rewrite race_gors. apply list_elem_of_here.
  - destruct (load_or_create_single_instance id_lower
                (schedule id_lower race_finished initSystem)
                (schedule_reachable id_lower race_finished))
      as (_ & _ & _ & _ & _ & _ & _ & _ & _ & _ & _ & Hrest & _).
    destruct (Hrest race_finished_returned (returned ex_post))
      as (p & hs & Hp & Hhs & Hr & Hb).
    { rewrite race_finished_gors. apply list_elem_of_here. }
    exists p, hs. split; [exact Hp|]. split; [exact Hhs|].
    rewrite race_finished_gors in Hr, Hb. split.
    + rewrite Hr. vm_compute. reflexivity.
    + rewrite Hb. vm_compute. reflexivity.
Defined.

Lemma method_counters_partition_requests_witness :
  get (methods (glob (schedule id_lower race_finished initSystem)))
    + post (methods (glob (schedule id_lower race_finished initSystem)))
    + other (methods (glob (schedule id_lower race_finished initSystem)))
  = totalRequests (glob (schedule id_lower race_finished initSystem)).
Proof.
  apply (method_counters_partition_requests id_lower).
  - apply schedule_reachable.
  - vm_compute. intros H; discriminate H.
  - exact race_finished_returned.
Defined.

Lemma totals_after_any_interleaving_witness :
  totalRequests (glob (schedule id_lower race_finished initSystem))
    = Go.uint64 (Z.of_nat (length
        (gors (schedule id_lower race_finished initSystem))))
  /\ totalBytes (glob (schedule id_lower race_finished initSystem))
     = Go.uint64 (total_size
         (ctx <$> gors (schedule id_lower race_finished initSystem))).
Proof.
  apply (totals_after_any_interleaving id_lower).
  - apply schedule_reachable.
  - exact race_finished_returned.
Defined.

Lemma total_bytes_at_least_11_interleaved_witness :
  11 * totalRequests (glob (schedule id_lower race initSystem))
  <= totalBytes (glob (schedule id_lower race initSystem)).
Proof.
  apply (total_bytes_at_least_11_interleaved id_lower).
  - apply schedule_reachable.
  - rewrite race_gors. repeat constructor; vm_compute; reflexivity.
  - vm_compute. intros H; discriminate H.
Defined.


Lemma final_totals_after_serve_witness :
  final_totals (90 * Go.Second + 5) (serve id_lower initGlobals [ex_post; ex_get])
  = (2, 210, Go.f64_of_Z 105, 90 * Go.Second).
Proof.
  rewrite final_totals_after_serve;
    [vm_compute; reflexivity
    |vm_compute; intros H; discriminate H
    |vm_compute; intros H; discriminate H].
Defined.

Lemma request_shows_in_next_tick_witness :
  at_pc <$> gors (schedule id_lower between_80_81 initSystem) = [AtHostBytes 0]
  /\ rtc (sys_step id_lower) (schedule id_lower between_80_81 initSystem)
       {| glob := (h id_lower
                     (glob (schedule id_lower between_80_81 initSystem))
                     ex_post).1;
          gors := gors (schedule id_lower between_80_81 initSystem)
                  ++ [returned ex_post] |}
  /\ exists r1 rep1 r2 line,
       tick msort (2 * Go.Second) 5 (60 * Go.Second)
            (glob (schedule id_lower between_80_81 initSystem)) initReporter
         = Go.Returns (r1, rep1)
       /\ tick msort (2 * Go.Second) 5 (62 * Go.Second)
               (h id_lower (glob (schedule id_lower between_80_81 initSystem))
                  ex_post).1 r1
          = Go.Returns
              (r2, (line,
                    [ {| line_host := hostKey id_lower ex_post;
                         line_req_per_s := 1 / interval_secs (2 * Go.Second);
                         line_avg := Go.f64_div (Go.f64_of_Z (reqSize ex_post))
                                                (Go.f64_of_Z 1);
                         line_req := 1;
                         line_bytes := reqSize ex_post |} ])).
Proof.
  split; [vm_compute; reflexivity|].
  apply (request_shows_in_next_tick id_lower msort msort_perm).
  - apply schedule_reachable.
  - lia.
  - exact two_seconds.
  - cbn [prevSnapshots initReporter]. rewrite dom_empty_L.
    apply empty_subseteq.
Defined.


